(** * Palette editor: colour engine of [src/App.tsx]

    A shallow embedding of the palette engine of [App.tsx] (naming, initial
    palette, bulk adjustment, per-slot replacement, shade ramp) and of the
    state and event handlers of the component, together with the part of the
    colour class it calls.

    Numbers.  JavaScript numbers are IEEE doubles; here they are exact
    rationals ([Q]).  Every statement below is therefore about the arithmetic
    the code writes down, not about its floating-point rounding.  Equality of
    numbers is [Qeq] ([==]); values stored in a colour are kept in lowest
    terms, so that two colours with equal channels are equal records. *)

From Stdlib Require Import QArith Qround Qcanon Qabs Lqa Lia ZArith Bool.
From Stdlib Require Import String Ascii List.
From Stdlib Require HexadecimalString DecimalString.
Import ListNotations.

Local Open Scope Q_scope.

(** ** JavaScript primitives used by the code *)

Module Js.

(** [Math.max] and [Math.min] on two numbers. *)
Definition Math_max (x y : Q) : Q := if Qlt_le_dec x y then y else x.
Definition Math_min (x y : Q) : Q := if Qlt_le_dec y x then y else x.

(** [Math.floor] and [Math.round] (round half up: [floor (x + 1/2)]). *)
Definition Math_floor (x : Q) : Z := Qfloor x.
Definition Math_round (x : Q) : Z := Qfloor (x + (1 # 2)).

(** Integer part, rounding toward zero. *)
Definition trunc (x : Q) : Z :=
  if Qlt_le_dec x 0 then Qceiling x else Qfloor x.

(** The [%] operator: the remainder has the sign of the dividend. *)
Definition rem (x m : Q) : Q := x - m * inject_Z (trunc (x / m)).

(** The mathematical modulus, for comparison: the result is in [[0, m)]. *)
Definition modulo (x m : Q) : Q := x - m * inject_Z (Qfloor (x / m)).

(** [String.prototype.trim] and [toLowerCase], on ASCII. *)
Definition isSpace (c : ascii) : bool :=
  let n := nat_of_ascii c in
  (Nat.eqb n 32 || (Nat.leb 9 n && Nat.leb n 13))%bool.

Fixpoint trimStart (s : string) : string :=
  match s with
  | String c s' => if isSpace c then trimStart s' else s
  | EmptyString => EmptyString
  end.

(** [trimEnd] keeps a character when it is not a space or when something
    that is kept follows it. *)
Fixpoint trimEnd (s : string) : string :=
  match s with
  | EmptyString => EmptyString
  | String c s' =>
      match trimEnd s' with
      | EmptyString => if isSpace c then EmptyString else String c EmptyString
      | rest => String c rest
      end
  end.

Definition trim (s : string) : string := trimEnd (trimStart s).

Definition lowerChar (c : ascii) : ascii :=
  let n := nat_of_ascii c in
  if (Nat.leb 65 n && Nat.leb n 90)%bool then ascii_of_nat (n + 32) else c.

Fixpoint toLowerCase (s : string) : string :=
  match s with
  | EmptyString => EmptyString
  | String c s' => String (lowerChar c) (toLowerCase s')
  end.

End Js.

(** ** The colour class

    [App.tsx] imports its colour class, [TinyColor], from the package
    [@ctrl/tinycolor] (line 2); the class is the ColorValue of the
    specification and its code is not part of the sources.  This module
    models the part of the class that [App.tsx] calls, after the
    specification's description of ColorValue (sections 3 and 4.1), in exact
    arithmetic: the tolerances and precision shortcuts a floating-point
    implementation needs are not part of it.

    Three of those shortcuts are visible in what the library returns, and
    an equality of rationals stated below holds of the library up to them:
    - it computes in doubles, where a channel that is exactly a half here
      (127.5, 254.5) can fall just below the half and print one lower;
    - its constructor reads a saturation or lightness given as a fraction
      through a percentage cut to two decimals (0.40196 is read as 0.4019);
    - it rounds a channel below 1 to a whole number. *)

Module TinyColor.
Import Js.

(** The notation a colour was made from.  The class keeps it in its field
    [format], and [toString()] prints the colour in it: an HSL object or
    string ([FormatHsl]), a hex string ([FormatHex]), an input that could
    not be read ([FormatNone], printed as hex), any other notation
    ([FormatOther]). *)
Inductive Format : Type :=
| FormatHsl
| FormatHex
| FormatNone
| FormatOther.

(** Modelled from the spec: the canonical form of a ColorValue, red, green
    and blue channels on the 0-255 scale (not rounded) plus alpha.
    [isValid] is the flag the class keeps about its input, [format] the
    notation of that input. *)
Record t : Type := Build {
  r : Q;
  g : Q;
  b : Q;
  a : Q;
  isValid : bool;
  format : Format
}.

(** Modelled from the spec: an HSL triple as [toHsl] returns it and as the
    constructor takes it, hue in degrees, saturation and lightness as
    fractions, with the alpha it carries along. *)
Record HSL : Type := BuildHSL {
  h : Q;
  s : Q;
  l : Q;
  alpha : Q
}.

(** Modelled from the spec: clamping of channels. *)
Definition clamp (lo hi x : Q) : Q := Math_min hi (Math_max lo x).

(** Modelled from the spec: clamping to [[0,1]],
    [Math.min(1, Math.max(0, val))]. *)
Definition clamp01 (x : Q) : Q := Math_min 1 (Math_max 0 x).

(** Modelled from the spec: a channel given on the scale [0..max] is cut
    to that range and brought to [[0,1]]. *)
Definition bound01 (n max : Q) : Q := clamp 0 max n / max.

(** Modelled from the spec: a hue in degrees is wrapped modulo 360 into
    [[0,360)] and brought to [[0,1)]. *)
Definition boundHue (n : Q) : Q :=
  (if Qlt_le_dec n 0 then rem n 360 + 360 else rem n 360) / 360.

(** Modelled from the spec: a saturation or lightness given to the
    constructor is a fraction in [[0,1]]; a number above 1 is read on the
    0-100 scale.  (The library's cut of the percentage to two decimals is
    not modelled.) *)
Definition boundFraction (n : Q) : Q :=
  if Qlt_le_dec 1 n then bound01 n 100 else bound01 (n * 100) 100.

(** Modelled from the spec: alpha is a fraction; a number outside [[0,1]]
    counts as opaque. *)
Definition boundAlpha (x : Q) : Q :=
  if Qlt_le_dec x 0 then 1 else if Qlt_le_dec 1 x then 1 else x.

Definition max3 (x y z : Q) : Q := Math_max (Math_max x y) z.
Definition min3 (x y z : Q) : Q := Math_min (Math_min x y) z.

(** Modelled from the spec: RGB to HSL by the standard piecewise-linear
    formulas (max/min channel, chroma, hue sector chosen by the maximal
    channel).  All three results are fractions; the hue is in [[0,1)].
    [hslOfUnit] is the computation on channels already brought to
    [[0,1]]. *)
Definition hslOfUnit (r g b : Q) : Q * Q * Q :=
  let max := max3 r g b in
  let min := min3 r g b in
  let l := (max + min) / 2 in
  if Qeq_dec max min then (0, 0, l)
  else
    let d := max - min in
    let s := if Qlt_le_dec (1 # 2) l then d / (2 - max - min)
             else d / (max + min) in
    let h :=
      if Qeq_dec max r then (g - b) / d + (if Qlt_le_dec g b then 6 else 0)
      else if Qeq_dec max g then (b - r) / d + 2
      else (r - g) / d + 4 in
    (h / 6, s, l).

Definition rgbToHsl (r g b : Q) : Q * Q * Q :=
  hslOfUnit (bound01 r 255) (bound01 g 255) (bound01 b 255).

Definition hue2rgb (p q t : Q) : Q :=
  let t := if Qlt_le_dec t 0 then t + 1 else t in
  let t := if Qlt_le_dec 1 t then t - 1 else t in
  if Qlt_le_dec t (1 # 6) then p + (q - p) * (6 * t)
  else if Qlt_le_dec t (1 # 2) then q
  else if Qlt_le_dec t (2 # 3) then p + (q - p) * ((2 # 3) - t) * 6
  else p.

(** Modelled from the spec: HSL to RGB by the standard formulas; the
    result is on the 0-255 scale.  [rgbOfUnit] is the computation on
    arguments already brought to [[0,1]]. *)
Definition rgbOfUnit (h s l : Q) : Q * Q * Q :=
  if Qeq_dec s 0 then (l * 255, l * 255, l * 255)
  else
    let q := if Qlt_le_dec l (1 # 2) then l * (1 + s) else l + s - l * s in
    let p := 2 * l - q in
    (hue2rgb p q (h + (1 # 3)) * 255,
     hue2rgb p q h * 255,
     hue2rgb p q (h - (1 # 3)) * 255).

Definition hslToRgb (h s l : Q) : Q * Q * Q :=
  rgbOfUnit (boundHue h) (boundFraction s) (boundFraction l).

(** Modelled from the spec: what every constructor ends with, the channels
    cut to [[0,255]] and stored (in lowest terms). *)
Definition make (r g b a : Q) (ok : bool) (fmt : Format) : t :=
  Build (Qred (clamp 0 255 r)) (Qred (clamp 0 255 g))
        (Qred (clamp 0 255 b)) (Qred (boundAlpha a)) ok fmt.

(** Modelled from the spec: [new TinyColor({h, s, l, a})], the ColorValue
    of an HSL triple. *)
Definition ofHsl (c : HSL) : t :=
  let '(r, g, b) := hslToRgb (h c) (s c) (l c) in
  make r g b (alpha c) true FormatHsl.

(** Modelled from the spec: [toHsl()], hue in degrees in [[0,360)],
    saturation and lightness in [[0,1]]. *)
Definition toHsl (c : t) : HSL :=
  let '(h, s, l) := rgbToHsl (r c) (g c) (b c) in
  BuildHSL (h * 360) s l (a c).

(** Modelled from the spec: [toHexString()], each channel rounded and
    printed with two lower-case hex digits after [#]. *)
Definition toString16 (n : Z) : string :=
  HexadecimalString.NilZero.string_of_uint (N.to_hex_uint (Z.to_N n)).

Definition pad2 (c : string) : string :=
  if Nat.eqb (String.length c) 1 then String "0" c else c.

Definition rgbToHex (r g b : Q) : string :=
  (pad2 (toString16 (Math_round r)) ++
   pad2 (toString16 (Math_round g)) ++
   pad2 (toString16 (Math_round b)))%string.

Definition toHexString (c : t) : string :=
  String "#" (rgbToHex (r c) (g c) (b c)).

(** *** String input

    Modelled from the spec: the 6- and 3-digit hex forms, with or without
    the leading [#], after trimming and lower-casing.  Every other notation
    the class reads (colour names, functional notations, hex with alpha)
    and the four presentation strings are left as parameters: nothing
    below depends on what they are. *)
Class Formats : Type := {
  otherNotation : string -> option (Q * Q * Q * Q);
  toRgbString : t -> string;
  toHslString : t -> string;
  toHsvString : t -> string;
  toCmykString : t -> string
}.

Definition hexDigit (c : ascii) : option Z :=
  let n := Z.of_nat (nat_of_ascii c) in
  if ((48 <=? n) && (n <=? 57))%Z then Some (n - 48)%Z
  else if ((97 <=? n) && (n <=? 102))%Z then Some (n - 87)%Z
  else None.

(** [parseInt(val, 16)] on two hex digits. *)
Definition parseIntFromHex (c1 c2 : ascii) : option Z :=
  match hexDigit c1, hexDigit c2 with
  | Some d1, Some d2 => Some (16 * d1 + d2)%Z
  | _, _ => None
  end.

Definition hexForms (body : string) : option (Z * Z * Z) :=
  match body with
  | String r1 (String r2 (String g1 (String g2 (String b1 (String b2
      EmptyString))))) =>
      match parseIntFromHex r1 r2, parseIntFromHex g1 g2,
            parseIntFromHex b1 b2 with
      | Some r, Some g, Some b => Some (r, g, b)
      | _, _, _ => None
      end
  | String r1 (String g1 (String b1 EmptyString)) =>
      match parseIntFromHex r1 r1, parseIntFromHex g1 g1,
            parseIntFromHex b1 b1 with
      | Some r, Some g, Some b => Some (r, g, b)
      | _, _, _ => None
      end
  | _ => None
  end.

Definition stripHash (color : string) : string :=
  match color with
  | String "#" body => body
  | _ => color
  end.

(** The hex reading of a string, if it has one. *)
Definition parseHex (color : string) : option (Z * Z * Z) :=
  hexForms (stripHash (toLowerCase (trim color))).

(** [None] stands for the [false] the parser returns on a string it
    cannot read. *)
Definition stringInputToObject `{F : Formats} (color : string)
  : option (Q * Q * Q * Q * Format) :=
  let color := toLowerCase (trim color) in
  match color with
  | EmptyString => None
  | _ =>
      match hexForms (stripHash color) with
      | Some (r, g, b) =>
          Some (inject_Z r, inject_Z g, inject_Z b, 1, FormatHex)
      | None =>
          match otherNotation color with
          | Some (r, g, b, a) => Some (r, g, b, a, FormatOther)
          | None => None
          end
      end
  end.

(** [new TinyColor(string)].  The constructor of the imported class
    returns a colour for every string and records in [isValid] whether the
    string could be read; a string that cannot be read gives black, opaque.
    [App.tsx] uses the result unconditionally (lines 61-62, 83-85, 110-118):
    it has no exception handler and tests no flag.  (The specification's
    section 7 asks for a rejection with an error named InvalidColorFormat;
    neither [App.tsx] nor the class it imports has one.) *)
Definition ofString `{F : Formats} (color : string) : t :=
  match stringInputToObject color with
  | Some (r, g, b, a, fmt) => make r g b a true fmt
  | None => make 0 0 0 1 false FormatNone
  end.

(** *** Derived operations *)

(** [clone()] is [new TinyColor(this.toString())]: the colour is printed
    in the notation it was made from and the print is read again.

    A colour made from HSL is printed as [hsl(h, s%, l%)] with the hue
    rounded to whole degrees and saturation and lightness to whole
    percents (and alpha, when it is not 1, to two decimals), so its clone
    is the colour of the rounded triple.  A colour read from a hex string,
    or from a string that could not be read, is printed as its hex string:
    its clone has the rounded channels.  For the other notations, modelled
    from the spec: the clone is an equal value. *)
Definition rereadHsl (c : t) : t :=
  let hsl := toHsl c in
  ofHsl (BuildHSL (inject_Z (Math_round (h hsl)))
                  (inject_Z (Math_round (s hsl * 100)) / 100)
                  (inject_Z (Math_round (l hsl * 100)) / 100)
                  (inject_Z (Math_round (a c * 100)) / 100)).

Definition rereadHex (c : t) : t :=
  match parseHex (toHexString c) with
  | Some (r, g, b) =>
      make (inject_Z r) (inject_Z g) (inject_Z b) 1 true FormatHex
  | None => make 0 0 0 1 false FormatNone
  end.

Definition clone (c : t) : t :=
  match format c with
  | FormatHsl => rereadHsl c
  | FormatHex | FormatNone => rereadHex c
  | FormatOther => c
  end.

(** Modelled from the spec: [spin(degrees)] rotates the hue, wrapping
    modulo 360 into [[0,360)]; saturation and lightness are kept. *)
Definition spin (c : t) (amount : Q) : t :=
  let hsl := toHsl c in
  let hue := rem (h hsl + amount) 360 in
  let hue := if Qlt_le_dec hue 0 then 360 + hue else hue in
  ofHsl (BuildHSL hue (s hsl) (l hsl) (alpha hsl)).

(** Modelled from the spec: [lighten(percent)] adds [percent / 100] to
    the lightness and clamps it; hue and saturation are kept. *)
Definition lighten (c : t) (amount : Q) : t :=
  let hsl := toHsl c in
  let l' := clamp01 (l hsl + amount / 100) in
  ofHsl (BuildHSL (h hsl) (s hsl) l' (alpha hsl)).

(** *** A reference instance

    Modelled from the spec: the four presentation strings of an opaque
    colour as percentage-bearing tuples of rounded values, with HSV by the
    standard formulas and CMYK by the subtractive approximation
    ([k = 1 - max(r,g,b)]).  This instance reads hex strings only.  It is
    used to run the definitions on examples. *)
Definition decimal (n : Z) : string :=
  DecimalString.NilZero.string_of_int (Z.to_int n).

Definition percent (x : Q) : string :=
  (decimal (Math_round (x * 100)) ++ "%")%string.

Definition tuple (tag : string) (fields : list string) : string :=
  (tag ++ "(" ++ String.concat ", " fields ++ ")")%string.

Definition rgbToHsv (r g b : Q) : Q * Q * Q :=
  let '(h, _, _) := rgbToHsl r g b in
  let r := bound01 r 255 in
  let g := bound01 g 255 in
  let b := bound01 b 255 in
  let max := max3 r g b in
  let min := min3 r g b in
  let s := if Qeq_dec max 0 then 0 else (max - min) / max in
  (h, s, max).

Definition rgbToCmyk (r g b : Q) : Q * Q * Q * Q :=
  let r := bound01 r 255 in
  let g := bound01 g 255 in
  let b := bound01 b 255 in
  let k := 1 - max3 r g b in
  if Qeq_dec k 1 then (0, 0, 0, 1)
  else ((1 - r - k) / (1 - k), (1 - g - k) / (1 - k),
        (1 - b - k) / (1 - k), k).

Definition hexOnly : Formats :=
  {| otherNotation := fun _ => None;
     toRgbString := fun c =>
       tuple "rgb" [decimal (Math_round (r c)); decimal (Math_round (g c));
                    decimal (Math_round (b c))];
     toHslString := fun c =>
       let hsl := toHsl c in
       tuple "hsl" [decimal (Math_round (h hsl)); percent (s hsl);
                    percent (l hsl)];
     toHsvString := fun c =>
       let '(h, s, v) := rgbToHsv (r c) (g c) (b c) in
       tuple "hsv" [decimal (Math_round (h * 360)); percent s; percent v];
     toCmykString := fun c =>
       let '(c', m, y, k) := rgbToCmyk (r c) (g c) (b c) in
       tuple "cmyk" [percent c'; percent m; percent y; percent k] |}.

(** *** Well-formed colours

    What every constructor returns: channels in [[0,255]], alpha in
    [[0,1]], all four in lowest terms. *)
Definition wf (c : t) : Prop :=
  (0 <= r c /\ r c <= 255) /\ (0 <= g c /\ g c <= 255) /\
  (0 <= b c /\ b c <= 255) /\ (0 <= a c /\ a c <= 1) /\
  Qred (r c) = r c /\ Qred (g c) = g c /\ Qred (b c) = b c /\
  Qred (a c) = a c.

(** The colour a string that cannot be read becomes. *)
Definition black : t := Build 0 0 0 1 false FormatNone.

End TinyColor.

(** ** The palette engine of [App.tsx] *)

Module App.
Import Js.

(** [interface ColorData] (lines 6-13). *)
Record ColorData : Type := BuildColorData {
  hex : string;
  name : string;
  rgb : string;
  hsl : string;
  hsv : string;
  cmyk : string
}.

(** The slider state (lines 50-54). *)
Record Adjustments : Type := BuildAdjustments {
  hue : Q;
  saturation : Q;
  brightness : Q
}.

Definition hueNames : list string :=
  ["Red"; "Orange"; "Yellow"; "Green"; "Blue"; "Purple"; "Pink"]%string.

(** [xs[i]] for a number [i] that is an integer: [None] is [undefined]. *)
Definition element (xs : list string) (i : Z) : option string :=
  if (i <? 0)%Z then None else nth_error xs (Z.to_nat i).

(** A value inside a template literal. *)
Definition show (v : option string) : string :=
  match v with
  | Some w => w
  | None => "undefined"
  end.

(** Lines 26-28. *)
Definition hueIndex (h : Q) : Z := Math_floor (rem h 360 / 60).

Definition saturationLabel (s : Q) : string :=
  if Qlt_le_dec 0.5 s then "Vibrant" else "Muted".

Definition lightnessLabel (l : Q) : string :=
  if Qlt_le_dec 0.7 l then "Light"
  else if Qlt_le_dec l 0.3 then "Dark"
  else "".

(** The body of [generateColorName] once [h], [s], [l] are bound
    (lines 17-29). *)
Definition colorNameOf (h s l : Q) : string :=
  trim (lightnessLabel l ++ " " ++ saturationLabel s ++ " " ++
        show (element hueNames (hueIndex h)))%string.

(** [generateColorName] (lines 15-30). *)
Definition generateColorName (color : TinyColor.t) : string :=
  let hsl := TinyColor.toHsl color in
  colorNameOf (TinyColor.h hsl) (TinyColor.s hsl) (TinyColor.l hsl).

(** [Array.prototype.map] with the index. *)
Fixpoint mapFrom {A B : Type} (f : A -> nat -> B) (i : nat) (xs : list A)
  : list B :=
  match xs with
  | [] => []
  | x :: xs' => f x i :: mapFrom f (S i) xs'
  end.

Definition mapi {A B : Type} (f : A -> nat -> B) (xs : list A) : list B :=
  mapFrom f 0 xs.

Section Engine.
Context `{F : TinyColor.Formats}.

(** The record that lines 39-46, 67-74 and 84-91 build from a colour. *)
Definition colorData (color : TinyColor.t) : ColorData :=
  {| hex := TinyColor.toHexString color;
     name := generateColorName color;
     rgb := TinyColor.toRgbString color;
     hsl := TinyColor.toHslString color;
     hsv := TinyColor.toHsvString color;
     cmyk := TinyColor.toCmykString color |}.

(** The initial palette (lines 33-48); [random] is the value of
    [Math.random()]. *)
Definition baseColor (random : Q) : TinyColor.t :=
  TinyColor.ofHsl (TinyColor.BuildHSL (random * 360) 0.7 0.5 1).

Definition slotColor (base : TinyColor.t) (i : nat) : TinyColor.t :=
  TinyColor.spin (TinyColor.clone base) (inject_Z (Z.of_nat i) * 30).

Definition initialPalette (random : Q) : list ColorData :=
  let base := baseColor random in
  map (fun i => colorData (slotColor base i)) (seq 0 5).

(** The three assignments of lines 63-65. *)
Definition adjustHsl (adjustments : Adjustments) (c : TinyColor.HSL)
  : TinyColor.HSL :=
  TinyColor.BuildHSL
    (rem (TinyColor.h c + hue adjustments) 360)
    (Math_max 0 (Math_min 1 (TinyColor.s c + saturation adjustments / 100)))
    (Math_max 0 (Math_min 1 (TinyColor.l c + brightness adjustments / 100)))
    (TinyColor.alpha c).

(** Lines 61-66: the colour an entry's hex becomes. *)
Definition adjustColor (adjustments : Adjustments) (hex : string)
  : TinyColor.t :=
  let tiny := TinyColor.ofString hex in
  let hsl := TinyColor.toHsl tiny in
  TinyColor.ofHsl (adjustHsl adjustments hsl).

(** [adjustPalette] (lines 58-77), as the function of the previous
    palette that it passes to [setPalette]. *)
Definition adjustPalette (adjustments : Adjustments)
  (prev : list ColorData) : list ColorData :=
  map (fun color => colorData (adjustColor adjustments (hex color))) prev.

(** [handleColorChange] (lines 79-94). *)
Definition handleColorChange (index : nat) (newColor : string)
  (prev : list ColorData) : list ColorData :=
  mapi (fun color i =>
          if negb (Nat.eqb i index) then color
          else colorData (TinyColor.ofString newColor)) prev.

(** [handleNameChange] (lines 96-100). *)
Definition handleNameChange (index : nat) (newName : string)
  (prev : list ColorData) : list ColorData :=
  mapi (fun color i =>
          if Nat.eqb i index then
            {| hex := hex color; name := newName; rgb := rgb color;
               hsl := hsl color; hsv := hsv color; cmyk := cmyk color |}
          else color) prev.

(** [getShades] (lines 109-120). *)
Definition shadeFactor (i : nat) : Q :=
  (inject_Z (Z.of_nat i) - 2) * 0.2.

Definition shadeColor (base : TinyColor.t) (i : nat) : TinyColor.t :=
  TinyColor.lighten (TinyColor.clone base) (shadeFactor i * 50).

Definition getShades (hex : string) : list string :=
  let base := TinyColor.ofString hex in
  map (fun i => TinyColor.toHexString (shadeColor base i)) (seq 0 5).

End Engine.

(** *** Vocabulary of the statements *)

(** The six hue words that a sector index in 0..5 selects. *)
Definition sixHues : list string :=
  ["Red"; "Orange"; "Yellow"; "Green"; "Blue"; "Purple"]%string.

(** The zero adjustment vector, the sliders' initial state (lines 50-54). *)
Definition noAdjustment : Adjustments := BuildAdjustments 0 0 0.

(** The lighten offsets the specification lists for five steps, and the
    ones [getShades] passes to [lighten]: [(i - 2) * 0.2 * 50]. *)
Definition specOffsets : list Q := [-40; -20; 0; 20; 40].
Definition codeOffsets : list Q := [-20; -10; 0; 10; 20].

(** Shade [i] of [base] is lighter than [base] by the [i]-th offset,
    clamped. *)
Definition shadesFollow (offsets : list Q) (base : TinyColor.t) : Prop :=
  Forall2 (fun shade offset =>
             TinyColor.l (TinyColor.toHsl shade) ==
             TinyColor.clamp01
               (TinyColor.l (TinyColor.toHsl base) + offset / 100))
          (map (shadeColor base) (seq 0 5)) offsets.

(** A hex string as the engine stores it: printed by [toHexString]. *)
Definition storedHex (x : string) : Prop :=
  exists c : TinyColor.t, TinyColor.wf c /\ x = TinyColor.toHexString c.

End App.

(** ** Auxiliary definitions of the proofs *)

Import Js TinyColor App.

(** The three channels in the sector [k] of the hue circle: [v] is the
    chroma times the position inside the sector. *)
Definition sectorForm (p q v : Q) (k : Z) (R G B : Q) : Prop :=
  match k with
  | 0%Z => R == q /\ G == p + v /\ B == p
  | 1%Z => R == q - v /\ G == q /\ B == p
  | 2%Z => R == p /\ G == q /\ B == p + v
  | 3%Z => R == p /\ G == q - v /\ B == q
  | 4%Z => R == p + v /\ G == p /\ B == q
  | _ => R == q /\ G == p /\ B == q - v
  end.

(** The saturation [rgbToHsl] computes from the minimal and maximal
    channel. *)
Definition satOf (p q : Q) : Q :=
  if Qlt_le_dec (1 # 2) ((q + p) / 2) then (q - p) / (2 - q - p)
  else (q - p) / (q + p).

Fixpoint allChars (P : ascii -> bool) (s : string) : bool :=
  match s with
  | EmptyString => true
  | String c s' => P c && allChars P s'
  end.

(** A character that [trim] and [toLowerCase] leave alone. *)
Definition plainChar (c : ascii) : bool :=
  negb (isSpace c) && Ascii.eqb (lowerChar c) c.

(** The two digits [pad2] and [toString16] print for a channel value, read
    back by [parseIntFromHex]. *)
Definition hexPairOk (n : Z) : bool :=
  match pad2 (toString16 n) with
  | String c1 (String c2 EmptyString) =>
      match parseIntFromHex c1 c2 with
      | Some m => (m =? n)%Z && plainChar c1 && plainChar c2
      | None => false
      end
  | _ => false
  end.

(** ** The component's state and handlers

    What [App] keeps between renders (lines 33-56) and what its event
    handlers do to it.  A handler runs with the values of the render that
    created it, and the state updates it queues are applied together before
    the next render. *)

(** The four [useState] cells. *)
Record State : Type := BuildState {
  palette : list ColorData;
  adjustments : Adjustments;
  selectedColor : option nat;
  showPicker : option nat
}.

(** [showPicker === index ? null : index] (line 235). *)
Definition togglePicker (shown : option nat) (index : nat) : option nat :=
  match shown with
  | Some j => if Nat.eqb j index then None else Some index
  | None => Some index
  end.

(** What the Shades panel (lines 257-270) renders: nothing while
    [selectedColor] is [null]; otherwise the shades of
    [palette[selectedColor].hex], where reading [.hex] of a missing entry
    throws. *)
Inductive Panel : Type :=
| NoPanel
| ShadesOf (shades : list string)
| ThrowsTypeError.

(** The events the rendered page offers. *)
Inductive Event : Type :=
| HueChange (value : Q)
| SaturationChange (value : Q)
| BrightnessChange (value : Q)
| SlotClick (index : nat)
| PickerChange (index : nat) (newColor : string)
| NameInput (index : nat) (newName : string).

(** A six-digit lower-case hex colour, [#rrggbb]. *)
Definition isHexColor (x : string) : bool :=
  match x with
  | String "#" body =>
      Nat.eqb (String.length body) 6 &&
      allChars (fun c => match hexDigit c with Some _ => true | None => false end)
               body
  | _ => false
  end.

(** The entry with another name: [{ ...color, name }] (line 98). *)
Definition renamed (newName : string) (color : ColorData) : ColorData :=
  {| hex := hex color; name := newName; rgb := rgb color;
     hsl := hsl color; hsv := hsv color; cmyk := cmyk color |}.

Section Component.
Context `{F : Formats}.

(** The initial values of the four cells. *)
Definition initialState (random : Q) : State :=
  BuildState (initialPalette random) (BuildAdjustments 0 0 0) None None.

(** The [onChange] of the hue slider (lines 172-178): it queues the new
    hue and calls [adjustPalette], whose closure holds the [adjustments] of
    the current render. *)
Definition onHueChange (value : Q) (st : State) : State :=
  BuildState
    (adjustPalette (adjustments st) (palette st))
    (BuildAdjustments value (saturation (adjustments st))
                      (brightness (adjustments st)))
    (selectedColor st) (showPicker st).

(** Lines 189-195. *)
Definition onSaturationChange (value : Q) (st : State) : State :=
  BuildState
    (adjustPalette (adjustments st) (palette st))
    (BuildAdjustments (hue (adjustments st)) value
                      (brightness (adjustments st)))
    (selectedColor st) (showPicker st).

(** Lines 206-212. *)
Definition onBrightnessChange (value : Q) (st : State) : State :=
  BuildState
    (adjustPalette (adjustments st) (palette st))
    (BuildAdjustments (hue (adjustments st)) (saturation (adjustments st))
                      value)
    (selectedColor st) (showPicker st).

(** The [onClick] of a slot (lines 233-236). *)
Definition onSlotClick (index : nat) (st : State) : State :=
  BuildState (palette st) (adjustments st) (Some index)
             (togglePicker (showPicker st) index).

(** The [onChange] of the picker (lines 246-248). *)
Definition onPickerChange (index : nat) (newColor : string) (st : State)
  : State :=
  BuildState (handleColorChange index newColor (palette st))
             (adjustments st) (selectedColor st) (showPicker st).

(** The [onChange] of the name field (line 139). *)
Definition onNameInput (index : nat) (newName : string) (st : State) : State :=
  BuildState (handleNameChange index newName (palette st))
             (adjustments st) (selectedColor st) (showPicker st).

Definition handle (e : Event) (st : State) : State :=
  match e with
  | HueChange v => onHueChange v st
  | SaturationChange v => onSaturationChange v st
  | BrightnessChange v => onBrightnessChange v st
  | SlotClick i => onSlotClick i st
  | PickerChange i c => onPickerChange i c st
  | NameInput i n => onNameInput i n st
  end.

(** The page renders one slot, with its name field, per palette entry
    (lines 228-241), and the picker only in the slot [showPicker] names
    (line 242). *)
Definition offered (st : State) (e : Event) : Prop :=
  match e with
  | HueChange _ | SaturationChange _ | BrightnessChange _ => True
  | SlotClick i => (i < List.length (palette st))%nat
  | PickerChange i _ =>
      (i < List.length (palette st))%nat /\ showPicker st = Some i
  | NameInput i _ => (i < List.length (palette st))%nat
  end.

(** The states the component can be in. *)
Inductive reachable : State -> Prop :=
| reachable_initial (random : Q) :
    0 <= random -> random < 1 -> reachable (initialState random)
| reachable_handle (st : State) (e : Event) :
    reachable st -> offered st e -> reachable (handle e st).

(** A sequence of events, one render after each. *)
Definition run (events : list Event) (st : State) : State :=
  fold_left (fun st e => handle e st) events st.

(** An entry whose five format strings are those of one colour; the name
    is free. *)
Definition coherent (color : ColorData) : Prop :=
  exists c : TinyColor.t,
    wf c /\ color = renamed (name color) (colorData c).

(** Lines 257-260. *)
Definition shadesPanel (st : State) : Panel :=
  match selectedColor st with
  | None => NoPanel
  | Some i =>
      match nth_error (palette st) i with
      | Some color => ShadesOf (getShades (hex color))
      | None => ThrowsTypeError
      end
  end.

End Component.

(** ** Tactics *)

(** [lra] with division by a numeral. *)
Ltac qconst :=
  unfold Qdiv in *;
  repeat match goal with
  | |- context [Qinv (Qmake ?n ?d)] =>
      let v := eval vm_compute in (Qinv (Qmake n d)) in
      change (Qinv (Qmake n d)) with v
  | H : context [Qinv (Qmake ?n ?d)] |- _ =>
      let v := eval vm_compute in (Qinv (Qmake n d)) in
      change (Qinv (Qmake n d)) with v in H
  end.
Ltac qlra := qconst; lra.

(** Case analysis on the comparisons of the goal, innermost first. *)
Ltac qcase :=
  match goal with
  | |- context [Qlt_le_dec ?x ?y] =>
      lazymatch x with
      | context [Qlt_le_dec _ _] => fail
      | _ => lazymatch y with
             | context [Qlt_le_dec _ _] => fail
             | _ => destruct (Qlt_le_dec x y)
             end
      end
  end.

Ltac qcases := repeat (qcase; try (exfalso; qlra)).

Ltac eqcases :=
  repeat match goal with
         | |- context [Qeq_dec ?x ?y] =>
             destruct (Qeq_dec x y); try (exfalso; qlra)
         end.

Ltac splits := repeat match goal with |- _ /\ _ => split end.

Ltac frac_split Hc Hh Hw :=
  destruct Hc as [(?C1 & ?C2)|[(?C1 & ?C2 & ?C3 & ?C4)|[(?C1 & ?C2)|
                  [(?C1 & ?C2 & ?C3 & ?C4)|(?C1 & ?C2)]]]];
  try (exfalso; lra);
  try match goal with
      | E : ?w == _ |- _ => is_var w; rewrite E in Hh, Hw
      end.

Ltac hue_leaf Hq Hp Hh :=
  unfold hue2rgb; qcases; rewrite ?Hq, ?Hp, ?Hh; qlra.

(** * Properties *)

(** ** Floors, remainders and moduli *)

Lemma Qfloor_unique (x : Q) (k : Z) :
  inject_Z k <= x -> x < inject_Z (k + 1) -> Qfloor x = k.
Proof.
  intros Hlo Hhi.
  pose proof (Qfloor_le x) as H1. pose proof (Qlt_floor x) as H2.
  assert (inject_Z (Qfloor x) < inject_Z (k + 1)) as A by lra.
  assert (inject_Z k < inject_Z (Qfloor x + 1)) as B by lra.
  rewrite <- Zlt_Qlt in A, B. lia.
Qed.

Lemma Qceiling_unique (x : Q) (k : Z) :
  inject_Z (k - 1) < x -> x <= inject_Z k -> Qceiling x = k.
Proof.
  intros Hlo Hhi.
  pose proof (Qle_ceiling x) as H1. pose proof (Qceiling_lt x) as H2.
  assert (inject_Z (k - 1) < inject_Z (Qceiling x)) as A by lra.
  assert (inject_Z (Qceiling x - 1) < inject_Z k) as B by lra.
  rewrite <- Zlt_Qlt in A, B. lia.
Qed.

Lemma trunc_nonneg (x : Q) : 0 <= x -> trunc x = Qfloor x.
Proof. intros H. unfold trunc. destruct (Qlt_le_dec x 0); [lra | reflexivity]. Qed.

Lemma trunc_neg (x : Q) : x < 0 -> trunc x = Qceiling x.
Proof. intros H. unfold trunc. destruct (Qlt_le_dec x 0); [reflexivity | lra]. Qed.


Lemma modulo_range (x m : Q) : 0 < m -> 0 <= modulo x m /\ modulo x m < m.
Proof.
  intros Hm. unfold modulo.
  pose proof (Qfloor_le (x / m)) as H1. pose proof (Qlt_floor (x / m)) as H2.
  rewrite inject_Z_plus in H2.
  set (k := inject_Z (Qfloor (x / m))) in *.
  assert (E : x == (x / m) * m) by (field; lra).
  assert (A : k * m <= (x / m) * m) by (apply Qmult_le_compat_r; lra).
  assert (B : (x / m) * m < (k + inject_Z 1) * m) by (apply Qmult_lt_compat_r; lra).
  change (inject_Z 1) with 1 in B.
  split; lra.
Qed.

Lemma rem_nonneg (x m : Q) : 0 < m -> 0 <= x -> rem x m == modulo x m.
Proof.
  intros Hm Hx. unfold rem, modulo.
  rewrite trunc_nonneg; [reflexivity|].
  apply Qle_shift_div_l; lra.
Qed.

Lemma modulo_small (x m : Q) : 0 <= x -> x < m -> modulo x m == x.
Proof.
  intros H1 H2. unfold modulo.
  rewrite (Qfloor_unique (x / m) 0).
  - change (inject_Z 0) with 0. lra.
  - change (inject_Z 0) with 0. apply Qle_shift_div_l; lra.
  - change (inject_Z (0 + 1)) with 1. apply Qlt_shift_div_r; lra.
Qed.


Lemma rem_small (x m : Q) : 0 <= x -> x < m -> rem x m == x.
Proof.
  intros H1 H2. rewrite rem_nonneg by lra. apply modulo_small; assumption.
Qed.

Lemma rem_negative (x m : Q) : 0 < m -> - m < x -> x < 0 -> rem x m == x.
Proof.
  intros Hm H1 H2. unfold rem.
  assert (D : x / m < 0).
  { apply Qlt_shift_div_r; lra. }
  assert (D' : -1 < x / m).
  { apply Qlt_shift_div_l; lra. }
  rewrite trunc_neg by assumption.
  rewrite (Qceiling_unique (x / m) 0).
  - change (inject_Z 0) with 0. lra.
  - change (inject_Z (0 - 1)) with (-1). assumption.
  - change (inject_Z 0) with 0. lra.
Qed.

(** ** The two colour conversions are inverse to each other *)

Lemma clamp_range (lo hi x : Q) : lo <= hi -> lo <= clamp lo hi x /\ clamp lo hi x <= hi.
Proof. intros H. unfold clamp, Math_min, Math_max. qcases; lra. Qed.

Lemma clamp_id (lo hi x : Q) : lo <= x -> x <= hi -> clamp lo hi x == x.
Proof. intros H1 H2. unfold clamp, Math_min, Math_max. qcases; lra. Qed.

Lemma clamp01_range (x : Q) : 0 <= clamp01 x /\ clamp01 x <= 1.
Proof. apply (clamp_range 0 1 x). lra. Qed.

Lemma bound01_range (n m : Q) : 0 < m -> 0 <= bound01 n m /\ bound01 n m <= 1.
Proof.
  intros Hm. unfold bound01.
  destruct (clamp_range 0 m n) as [A B]; [lra|].
  split; [apply Qle_shift_div_l | apply Qle_shift_div_r]; lra.
Qed.

Lemma bound01_id (n m : Q) : 0 < m -> 0 <= n -> n <= m -> bound01 n m == n / m.
Proof.
  intros Hm H1 H2. unfold bound01. rewrite (clamp_id 0 m n H1 H2). reflexivity.
Qed.

Lemma div_between (x d lo hi : Q) :
  0 < d -> lo * d <= x -> x <= hi * d -> lo <= x / d /\ x / d <= hi.
Proof.
  intros Hd H1 H2. split; [apply Qle_shift_div_l | apply Qle_shift_div_r]; assumption.
Qed.

Lemma div_below (x d hi : Q) : 0 < d -> x < hi * d -> x / d < hi.
Proof. intros. apply Qlt_shift_div_r; assumption. Qed.

Lemma div_above (x d lo : Q) : 0 < d -> lo * d < x -> lo < x / d.
Proof. intros. apply Qlt_shift_div_l; assumption. Qed.

Lemma rgbToHsl_unit (r g b : Q) :
  rgbToHsl r g b = hslOfUnit (bound01 r 255) (bound01 g 255) (bound01 b 255).
Proof. reflexivity. Qed.

Lemma max3_spec (x y z : Q) :
  x <= max3 x y z /\ y <= max3 x y z /\ z <= max3 x y z /\
  (max3 x y z = x \/ max3 x y z = y \/ max3 x y z = z).
Proof. unfold max3, Math_max. qcases; repeat split; auto; lra. Qed.

Lemma min3_spec (x y z : Q) :
  min3 x y z <= x /\ min3 x y z <= y /\ min3 x y z <= z /\
  (min3 x y z = x \/ min3 x y z = y \/ min3 x y z = z).
Proof. unfold min3, Math_min. qcases; repeat split; auto; lra. Qed.

Lemma hslOfUnit_range (r g b : Q) :
  0 <= r <= 1 -> 0 <= g <= 1 -> 0 <= b <= 1 ->
  let '(h, s, l) := hslOfUnit r g b in
  (0 <= h /\ h < 1) /\ (0 <= s /\ s <= 1) /\ (0 <= l /\ l <= 1).
Proof.
  intros Hr Hg Hb. unfold hslOfUnit.
  destruct (max3_spec r g b) as (M1 & M2 & M3 & M4).
  destruct (min3_spec r g b) as (m1 & m2 & m3 & m4).
  set (M := max3 r g b) in *. set (m := min3 r g b) in *.
  clearbody M m.
  assert (Hl : 0 <= (M + m) / 2 /\ (M + m) / 2 <= 1).
  { destruct M4 as [->|[->| ->]], m4 as [->|[->| ->]]; qlra. }
  destruct (Qeq_dec M m) as [E|NE].
  - repeat split; try lra; apply Hl.
  - assert (Hd : 0 < M - m).
    { destruct M4 as [->|[->| ->]], m4 as [->|[->| ->]]; lra. }
    assert (HM : M <= 1) by (destruct M4 as [->|[->| ->]]; lra).
    assert (Hm : 0 <= m) by (destruct m4 as [->|[->| ->]]; lra).
    split; [|split; [|exact Hl]].
    + assert (K : forall x, 0 <= x -> x < 6 -> 0 <= x / 6 /\ x / 6 < 1) by (intros; qlra).
      apply K.
      * destruct (Qeq_dec M r); [|destruct (Qeq_dec M g)].
        -- destruct (Qlt_le_dec g b).
           ++ destruct (div_between (g - b) (M - m) (-1) 0); [lra|lra|lra|lra].
           ++ destruct (div_between (g - b) (M - m) 0 1); [lra|lra|lra|lra].
        -- destruct (div_between (b - r) (M - m) (-1) 1); [lra|lra|lra|lra].
        -- destruct (div_between (r - g) (M - m) (-1) 1); [lra|lra|lra|lra].
      * destruct (Qeq_dec M r); [|destruct (Qeq_dec M g)].
        -- destruct (Qlt_le_dec g b).
           ++ assert ((g - b) / (M - m) < 0) by (apply div_below; lra). lra.
           ++ destruct (div_between (g - b) (M - m) 0 1); [lra|lra|lra|lra].
        -- destruct (div_between (b - r) (M - m) (-1) 1); [lra|lra|lra|lra].
        -- destruct (div_between (r - g) (M - m) (-1) 1); [lra|lra|lra|lra].
    + destruct (Qlt_le_dec (1 # 2) ((M + m) / 2)).
      * assert (L : 1 < M + m) by qlra.
        destruct (div_between (M - m) (2 - M - m) 0 1); [lra|lra|lra|]. split; assumption.
      * destruct (div_between (M - m) (M + m) 0 1); [lra|lra|lra|]. split; assumption.
Qed.

Lemma hslToRgb_unit (h s l : Q) :
  hslToRgb h s l = rgbOfUnit (boundHue h) (boundFraction s) (boundFraction l).
Proof. reflexivity. Qed.

Lemma div_eq (x c v : Q) : ~ c == 0 -> x == v * c -> x / c == v.
Proof. intros Hc Hx. rewrite Hx. field. assumption. Qed.

Lemma div_mul (x c : Q) : ~ c == 0 -> (x / c) * c == x.
Proof. intros. field. assumption. Qed.

(** [q] and [p] of [hslToRgb] are the maximal and minimal channel. *)
Lemma pq_of_chroma (M m s l : Q) :
  0 <= m -> m < M -> M <= 1 ->
  l == (M + m) / 2 ->
  s == (if Qlt_le_dec (1 # 2) ((M + m) / 2) then (M - m) / (2 - M - m)
        else (M - m) / (M + m)) ->
  let q := if Qlt_le_dec l (1 # 2) then l * (1 + s) else l + s - l * s in
  0 < s /\ q == M /\ 2 * l - q == m.
Proof.
  intros Hm HmM HM Hl Hs q. subst q.
  destruct (Qlt_le_dec (1 # 2) ((M + m) / 2)) as [L|L].
  - assert (Hs' : s * (2 - M - m) == M - m).
    { rewrite Hs. apply div_mul. qlra. }
    assert (P : 0 < s).
    { rewrite Hs. apply div_above; qlra. }
    destruct (Qlt_le_dec l (1 # 2)); [exfalso; qlra|].
    assert (E : l * s == s - (M - m) / 2).
    { rewrite Hl. qlra. }
    repeat split; qlra.
  - assert (Hs' : s * (M + m) == M - m).
    { rewrite Hs. apply div_mul. qlra. }
    assert (P : 0 < s).
    { rewrite Hs. apply div_above; qlra. }
    assert (E : l * s == (M - m) / 2).
    { rewrite Hl. qlra. }
    destruct (Qlt_le_dec l (1 # 2)).
    + repeat split; qlra.
    + assert (E1 : M + m == 1) by qlra.
      rewrite E1 in Hs'.
      repeat split; qlra.
Qed.

Lemma frac_cases (x d : Q) :
  0 < d -> - d <= x -> x <= d ->
  (x / d) * d == x /\
  ((x == - d /\ x / d == -1) \/
   (- d < x /\ x < 0 /\ -1 < x / d /\ x / d < 0) \/
   (x == 0 /\ x / d == 0) \/
   (0 < x /\ x < d /\ 0 < x / d /\ x / d < 1) \/
   (x == d /\ x / d == 1)).
Proof.
  intros Hd H1 H2. split; [apply div_mul; lra|].
  destruct (Qeq_dec x (- d)) as [E|E].
  { left. split; [assumption|]. rewrite E. field. lra. }
  right. destruct (Qlt_le_dec x 0) as [N|N].
  { left. repeat split; try lra; [apply div_above | apply div_below]; lra. }
  right. destruct (Qeq_dec x 0) as [Z|Z].
  { left. split; [assumption|]. rewrite Z. field. lra. }
  right. destruct (Qlt_le_dec x d) as [S|S].
  { left. repeat split; try lra; [apply div_above | apply div_below]; lra. }
  right. assert (E' : x == d) by lra. split; [assumption|].
  rewrite E'. field. lra.
Qed.

Lemma rgbOfUnit_hslOfUnit (r g b h s l : Q) :
  0 <= r <= 1 -> 0 <= g <= 1 -> 0 <= b <= 1 ->
  h == fst (fst (hslOfUnit r g b)) ->
  s == snd (fst (hslOfUnit r g b)) ->
  l == snd (hslOfUnit r g b) ->
  fst (fst (rgbOfUnit h s l)) == r * 255 /\
  snd (fst (rgbOfUnit h s l)) == g * 255 /\
  snd (rgbOfUnit h s l) == b * 255.
Proof.
  intros Hr Hg Hb. unfold hslOfUnit.
  destruct (max3_spec r g b) as (M1 & M2 & M3 & M4).
  destruct (min3_spec r g b) as (m1 & m2 & m3 & m4).
  set (M := max3 r g b) in *. set (m := min3 r g b) in *.
  clearbody M m.
  destruct (Qeq_dec M m) as [E|NE]; cbn [fst snd].
  - intros Hh Hs Hl. unfold rgbOfUnit.
    destruct (Qeq_dec s 0) as [_|C]; [|contradiction]. cbn [fst snd].
    rewrite Hl. repeat split; qlra.
  - intros Hh Hs Hl.
    assert (Hd : 0 < M - m).
    { destruct M4 as [->|[->| ->]], m4 as [->|[->| ->]]; lra. }
    assert (HM : M <= 1) by (destruct M4 as [->|[->| ->]]; lra).
    assert (Hm : 0 <= m) by (destruct m4 as [->|[->| ->]]; lra).
    destruct (pq_of_chroma M m s l Hm ltac:(lra) HM Hl Hs) as (P & Hq & Hp).
    unfold rgbOfUnit.
    destruct (Qeq_dec s 0) as [C|_]; [exfalso; lra|]. cbn [fst snd].
    set (q := if Qlt_le_dec l (1 # 2) then l * (1 + s) else l + s - l * s) in *.
    set (p := 2 * l - q) in *.
    clearbody p. clearbody q.
    clear Hs Hl P.
    revert Hh.
    destruct (Qeq_dec M r) as [Er|Nr]; [|destruct (Qeq_dec M g) as [Eg|Ng]].
    + destruct (frac_cases (g - b) (M - m) Hd ltac:(lra) ltac:(lra)) as (Hw & Hc).
      set (w := (g - b) / (M - m)) in *. clearbody w.
      destruct (Qlt_le_dec g b) as [L|L]; intros Hh;
      frac_split Hc Hh Hw;
      destruct M4 as [->|[->| ->]], m4 as [->|[->| ->]]; try (exfalso; lra);
      repeat split; hue_leaf Hq Hp Hh.
    + destruct (frac_cases (b - r) (M - m) Hd ltac:(lra) ltac:(lra)) as (Hw & Hc).
      set (w := (b - r) / (M - m)) in *. clearbody w.
      intros Hh;
      frac_split Hc Hh Hw;
      destruct M4 as [->|[->| ->]], m4 as [->|[->| ->]]; try (exfalso; lra);
      repeat split; hue_leaf Hq Hp Hh.
    + destruct (frac_cases (r - g) (M - m) Hd ltac:(lra) ltac:(lra)) as (Hw & Hc).
      set (w := (r - g) / (M - m)) in *. clearbody w.
      intros Hh;
      frac_split Hc Hh Hw;
      destruct M4 as [->|[->| ->]], m4 as [->|[->| ->]]; try (exfalso; lra);
      repeat split; hue_leaf Hq Hp Hh.
Qed.

Lemma hue_sector (p q h : Q) :
  0 <= h -> h < 1 ->
  exists (k : Z) (w : Q),
    (0 <= k <= 5)%Z /\ 0 <= w /\ w < 1 /\ h == (inject_Z k + w) / 6 /\
    sectorForm p q ((q - p) * w) k
      (hue2rgb p q (h + (1 # 3))) (hue2rgb p q h) (hue2rgb p q (h - (1 # 3))).
Proof.
  intros H0 H1.
  destruct (Qlt_le_dec h (1 # 6)) as [S1|S1];
    [exists 0%Z, (6 * h) |
  destruct (Qlt_le_dec h (2 # 6)) as [S2|S2];
    [exists 1%Z, (6 * h - 1) |
  destruct (Qlt_le_dec h (3 # 6)) as [S3|S3];
    [exists 2%Z, (6 * h - 2) |
  destruct (Qlt_le_dec h (4 # 6)) as [S4|S4];
    [exists 3%Z, (6 * h - 3) |
  destruct (Qlt_le_dec h (5 # 6)) as [S5|S5];
    [exists 4%Z, (6 * h - 4) | exists 5%Z, (6 * h - 5)]]]]];
  (split; [lia|]);
  (split; [lra|]);
  (split; [lra|]);
  (split; [unfold inject_Z; qlra|]);
  cbn [sectorForm]; unfold hue2rgb; repeat split; qcases; try qlra.
  assert (E : h == 2 # 3) by lra. rewrite E. lra.
Qed.

Lemma hue_back (x d c t : Q) :
  0 < d -> x == (6 * t - c) * d -> (x / d + c) / 6 == t.
Proof.
  intros Hd Hx. rewrite Hx. field. lra.
Qed.

Lemma div_cong (x x' d d' : Q) : x == x' -> d == d' -> x / d == x' / d'.
Proof. intros -> ->. reflexivity. Qed.

Lemma hslOfUnit_sector (p q w v R G B : Q) (k : Z) :
  p < q -> (0 <= k <= 5)%Z -> 0 <= w -> w < 1 -> v == (q - p) * w ->
  sectorForm p q v k R G B ->
  fst (fst (hslOfUnit R G B)) == (inject_Z k + w) / 6 /\
  snd (fst (hslOfUnit R G B)) == satOf p q /\
  snd (hslOfUnit R G B) == (q + p) / 2.
Proof.
  intros Hpq Hk Hw0 Hw1 Hv HF.
  assert (V1 : v < q - p).
  { rewrite Hv. setoid_replace (q - p) with ((q - p) * 1) at 2 by ring.
    apply Qmult_lt_l; lra. }
  assert (K : (k = 0 \/ k = 1 \/ k = 2 \/ k = 3 \/ k = 4 \/ k = 5)%Z) by lia.
  destruct (Qeq_dec w 0) as [W0|W0].
  - rewrite W0 in Hv. rewrite W0. clear Hw0 Hw1 W0.
    assert (V0 : v == 0) by lra. clear Hv.
    destruct K as [->|[->|[->|[->|[->| ->]]]]]; cbn [sectorForm] in HF;
    destruct HF as (HR & HG & HB);
    unfold hslOfUnit, max3, min3, Math_max, Math_min; qcases; eqcases; cbn [fst snd];
    qcases; unfold inject_Z;
    (split; [apply hue_back; [lra | rewrite ?HR, ?HG, ?HB; qlra] |
     split; [unfold satOf; qcases; apply div_cong; lra | qlra]]).
  - assert (V0 : 0 < v).
    { rewrite Hv. apply Qmult_lt_0_compat; lra. }
    destruct K as [->|[->|[->|[->|[->| ->]]]]]; cbn [sectorForm] in HF;
    destruct HF as (HR & HG & HB);
    unfold hslOfUnit, max3, min3, Math_max, Math_min; qcases; eqcases; cbn [fst snd];
    qcases; unfold inject_Z;
    (split; [apply hue_back; [lra | rewrite ?HR, ?HG, ?HB; qlra] |
     split; [unfold satOf; qcases; apply div_cong; lra | qlra]]).
Qed.

Lemma pq_of_sl (s l : Q) :
  0 < s -> s <= 1 -> 0 <= l -> l <= 1 ->
  let q := if Qlt_le_dec l (1 # 2) then l * (1 + s) else l + s - l * s in
  let p := 2 * l - q in
  0 <= p /\ p <= q /\ q <= 1 /\ (q + p) / 2 == l /\
  (0 < l -> l < 1 -> p < q /\ satOf p q == s) /\
  (l == 0 \/ l == 1 -> p == q).
Proof.
  intros Hs0 Hs1 Hl0 Hl1 q p. subst p q.
  assert (A : 0 <= l * s) by (apply Qmult_le_0_compat; lra).
  assert (B : 0 <= (1 - l) * (1 - s)) by (apply Qmult_le_0_compat; lra).
  assert (C : 0 <= l * (1 - s)) by (apply Qmult_le_0_compat; lra).
  assert (D : 0 <= s * (1 - l)) by (apply Qmult_le_0_compat; lra).
  destruct (Qlt_le_dec l (1 # 2)) as [L|L].
  - splits; try qlra.
    + intros P _. split.
      * assert (A' : 0 < l * s) by (apply Qmult_lt_0_compat; lra). lra.
      * unfold satOf. qcases. apply div_eq; lra.
  - splits; try qlra.
    + intros _ P. split.
      * assert (D' : 0 < s * (1 - l)) by (apply Qmult_lt_0_compat; lra). lra.
      * unfold satOf. qcases.
        -- apply div_eq; qlra.
        -- assert (E : l == 1 # 2) by qlra. rewrite E. apply div_eq; lra.
Qed.

Lemma hslOfUnit_gray (R G B x : Q) :
  R == x -> G == x -> B == x ->
  fst (fst (hslOfUnit R G B)) == 0 /\
  snd (fst (hslOfUnit R G B)) == 0 /\
  snd (hslOfUnit R G B) == x.
Proof.
  intros HR HG HB.
  unfold hslOfUnit, max3, min3, Math_max, Math_min; qcases; eqcases; cbn [fst snd];
  repeat split; qlra.
Qed.

Lemma hue2rgb_flat (p q t : Q) : p == q -> hue2rgb p q t == p.
Proof.
  intros E. unfold hue2rgb. qcases; rewrite <- ?E; lra.
Qed.

(** The inverse direction, on unit arguments: lightness always comes back,
    saturation when the colour is neither black nor white, hue when it is
    chromatic. *)
Lemma hslOfUnit_rgbOfUnit (h s l R G B : Q) :
  0 <= h -> h < 1 -> 0 <= s -> s <= 1 -> 0 <= l -> l <= 1 ->
  R * 255 == fst (fst (rgbOfUnit h s l)) ->
  G * 255 == snd (fst (rgbOfUnit h s l)) ->
  B * 255 == snd (rgbOfUnit h s l) ->
  (0 <= R <= 1 /\ 0 <= G <= 1 /\ 0 <= B <= 1) /\
  snd (hslOfUnit R G B) == l /\
  (0 < l -> l < 1 -> snd (fst (hslOfUnit R G B)) == s) /\
  (l == 0 \/ l == 1 -> snd (fst (hslOfUnit R G B)) == 0) /\
  (0 < s -> 0 < l -> l < 1 -> fst (fst (hslOfUnit R G B)) == h) /\
  (s == 0 \/ l == 0 \/ l == 1 -> fst (fst (hslOfUnit R G B)) == 0).
Proof.
  intros Hh0 Hh1 Hs0 Hs1 Hl0 Hl1. unfold rgbOfUnit.
  destruct (Qeq_dec s 0) as [Z|NZ]; cbn [fst snd].
  - intros HR HG HB.
    destruct (hslOfUnit_gray R G B l) as (A & B' & C); [qlra | qlra | qlra |].
    splits; try qlra; intros; qlra.
  - assert (Hs : 0 < s) by lra.
    destruct (pq_of_sl s l Hs Hs1 Hl0 Hl1) as (P0 & Ppq & Q1 & Hsum & Hchr & Hflat).
    set (q := if Qlt_le_dec l (1 # 2) then l * (1 + s) else l + s - l * s) in *.
    set (p := 2 * l - q) in *. clearbody p. clearbody q.
    intros HR HG HB.
    destruct (Qeq_dec l 0) as [L0|L0]; [|destruct (Qeq_dec l 1) as [L1|L1]].
    + assert (E : p == q) by (apply Hflat; left; assumption).
      rewrite (hue2rgb_flat p q (h + (1 # 3)) E) in HR.
      rewrite (hue2rgb_flat p q h E) in HG.
      rewrite (hue2rgb_flat p q (h - (1 # 3)) E) in HB.
      destruct (hslOfUnit_gray R G B l) as (A & B' & C); [qlra | qlra | qlra |].
      splits; try qlra; intros; qlra.
    + assert (E : p == q) by (apply Hflat; right; assumption).
      rewrite (hue2rgb_flat p q (h + (1 # 3)) E) in HR.
      rewrite (hue2rgb_flat p q h E) in HG.
      rewrite (hue2rgb_flat p q (h - (1 # 3)) E) in HB.
      destruct (hslOfUnit_gray R G B l) as (A & B' & C); [qlra | qlra | qlra |].
      splits; try qlra; intros; qlra.
    + destruct Hchr as (Hlt & Hsat); [lra|lra|].
      destruct (hue_sector p q h Hh0 Hh1) as (k & w & Hk & Hw0 & Hw1 & Hh & HF).
      assert (HF' : sectorForm p q ((q - p) * w) k R G B).
      { revert HF.
        assert (K : (k = 0 \/ k = 1 \/ k = 2 \/ k = 3 \/ k = 4 \/ k = 5)%Z) by lia.
        destruct K as [->|[->|[->|[->|[->| ->]]]]]; cbn [sectorForm];
        intros (F1 & F2 & F3); rewrite F1 in HR; rewrite F2 in HG; rewrite F3 in HB;
        repeat split; lra. }
      destruct (hslOfUnit_sector p q w ((q - p) * w) R G B k Hlt Hk Hw0 Hw1
                  ltac:(reflexivity) HF') as (A & B' & C).
      assert (V0 : 0 <= (q - p) * w) by (apply Qmult_le_0_compat; lra).
      assert (V1 : (q - p) * w <= (q - p)).
      { setoid_replace (q - p) with ((q - p) * 1) at 2 by ring.
        apply Qmult_le_l; lra. }
      split.
      { assert (K : (k = 0 \/ k = 1 \/ k = 2 \/ k = 3 \/ k = 4 \/ k = 5)%Z) by lia.
        destruct K as [->|[->|[->|[->|[->| ->]]]]]; cbn [sectorForm] in HF';
        destruct HF' as (F1 & F2 & F3); repeat split; lra. }
      splits; try (intros; qlra).
Qed.

(** ** Constructors and readers of the colour class *)

Lemma rem_vs_modulo (x m : Q) :
  0 < m -> x < 0 ->
  (rem x m == modulo x m - m /\ 0 < modulo x m) \/ (rem x m == 0 /\ modulo x m == 0).
Proof.
  intros Hm Hx. unfold rem, modulo.
  assert (D : x / m < 0) by (apply div_below; lra).
  rewrite trunc_neg by assumption.
  pose proof (Qfloor_le (x / m)) as F1. pose proof (Qlt_floor (x / m)) as F2.
  set (k := Qfloor (x / m)) in *.
  assert (E : x == (x / m) * m) by (field; lra).
  destruct (Qeq_dec (inject_Z k) (x / m)) as [I|I].
  - right. rewrite (Qceiling_unique (x / m) k).
    + rewrite I. split; field; lra.
    + unfold Z.sub. rewrite inject_Z_plus, inject_Z_opp.
      change (inject_Z 1) with 1. lra.
    + lra.
  - left. rewrite (Qceiling_unique (x / m) (k + 1)).
    + rewrite inject_Z_plus. change (inject_Z 1) with 1.
      split; [lra|].
      assert (L : inject_Z k * m < (x / m) * m) by (apply Qmult_lt_compat_r; lra).
      lra.
    + replace (k + 1 - 1)%Z with k by lia. lra.
    + lra.
Qed.

Lemma boundHue_small (x : Q) : 0 <= x -> x < 360 -> boundHue x == x / 360.
Proof.
  intros H0 H1. unfold boundHue. qcases.
  rewrite (rem_small x 360 H0 H1). reflexivity.
Qed.

(** Whatever the hue, [boundHue] is the mathematical modulus brought to
    [[0,1)], except that a negative multiple of 360 gives 1. *)
Lemma boundHue_modulo (x : Q) :
  boundHue x == modulo x 360 / 360 \/ (boundHue x == 1 /\ modulo x 360 == 0).
Proof.
  unfold boundHue. destruct (Qlt_le_dec x 0) as [N|N].
  - destruct (rem_vs_modulo x 360 ltac:(lra) N) as [(E & P)|(E & Z)].
    + left. rewrite E. qlra.
    + right. rewrite E. split; [reflexivity | assumption].
  - left. rewrite (rem_nonneg x 360 ltac:(lra) N). reflexivity.
Qed.

Lemma boundFraction_unit (x : Q) : 0 <= x -> x <= 1 -> boundFraction x == x.
Proof.
  intros H0 H1. unfold boundFraction.
  destruct (Qlt_le_dec 1 x) as [C|C]; [exfalso; lra|].
  rewrite bound01_id; [field | lra | lra | lra].
Qed.

Lemma boundAlpha_unit (x : Q) : 0 <= x -> x <= 1 -> boundAlpha x = x.
Proof.
  intros H0 H1. unfold boundAlpha. qcases. reflexivity.
Qed.

Lemma boundAlpha_range (x : Q) : 0 <= boundAlpha x /\ boundAlpha x <= 1.
Proof. unfold boundAlpha. qcases; lra. Qed.

Lemma make_wf (r g b a : Q) (ok : bool) (fmt : Format) :
  wf (make r g b a ok fmt).
Proof.
  unfold wf, make; cbn [TinyColor.r TinyColor.g TinyColor.b TinyColor.a].
  rewrite !Qred_involutive.
  pose proof (clamp_range 0 255 r ltac:(lra)).
  pose proof (clamp_range 0 255 g ltac:(lra)).
  pose proof (clamp_range 0 255 b ltac:(lra)).
  pose proof (boundAlpha_range a).
  pose proof (Qred_correct (clamp 0 255 r)).
  pose proof (Qred_correct (clamp 0 255 g)).
  pose proof (Qred_correct (clamp 0 255 b)).
  pose proof (Qred_correct (boundAlpha a)).
  repeat split; lra.
Qed.

Lemma ofHsl_wf (x : HSL) : wf (ofHsl x).
Proof.
  unfold ofHsl. destruct (hslToRgb (h x) (s x) (l x)) as [[r' g'] b'].
  apply make_wf.
Qed.

Lemma make_eq (r g b a r' g' b' a' : Q) (ok : bool) (fmt : Format) :
  0 <= r' <= 255 -> 0 <= g' <= 255 -> 0 <= b' <= 255 -> 0 <= a' <= 1 ->
  r == r' -> g == g' -> b == b' -> a == a' ->
  make r g b a ok fmt = Build (Qred r') (Qred g') (Qred b') (Qred a') ok fmt.
Proof.
  intros Hr Hg Hb Ha Er Eg Eb Ea. unfold make.
  f_equal; apply Qred_complete.
  - rewrite clamp_id; lra.
  - rewrite clamp_id; lra.
  - rewrite clamp_id; lra.
  - pose proof (boundAlpha_unit a ltac:(lra) ltac:(lra)) as E. rewrite E. exact Ea.
Qed.

Lemma rgbOfUnit_hue_one (h s l : Q) :
  h == 1 ->
  fst (fst (rgbOfUnit h s l)) == fst (fst (rgbOfUnit 0 s l)) /\
  snd (fst (rgbOfUnit h s l)) == snd (fst (rgbOfUnit 0 s l)) /\
  snd (rgbOfUnit h s l) == snd (rgbOfUnit 0 s l).
Proof.
  intros E. unfold rgbOfUnit.
  destruct (Qeq_dec s 0); cbn [fst snd]; [repeat split; reflexivity|].
  set (q := if Qlt_le_dec l (1 # 2) then l * (1 + s) else l + s - l * s).
  set (p := 2 * l - q). clearbody p. clearbody q.
  unfold hue2rgb. splits; qcases; rewrite ?E; lra.
Qed.

Lemma toHsl_range (c : t) :
  (0 <= h (toHsl c) /\ h (toHsl c) < 360) /\
  (0 <= s (toHsl c) /\ s (toHsl c) <= 1) /\
  (0 <= l (toHsl c) /\ l (toHsl c) <= 1) /\
  alpha (toHsl c) = a c.
Proof.
  unfold toHsl. rewrite rgbToHsl_unit.
  pose proof (hslOfUnit_range (bound01 (r c) 255) (bound01 (g c) 255)
                (bound01 (b c) 255)
                (bound01_range _ 255 ltac:(lra)) (bound01_range _ 255 ltac:(lra))
                (bound01_range _ 255 ltac:(lra))) as H.
  destruct (hslOfUnit _ _ _) as [[h0 s0] l0].
  cbn [h s l alpha]. splits; try reflexivity; lra.
Qed.

(** Building a colour from the HSL reading of a well-formed colour gives
    that colour back. *)
Lemma ofHsl_toHsl_eq (c : t) (y : HSL) :
  wf c ->
  h y == h (toHsl c) -> s y == s (toHsl c) -> l y == l (toHsl c) ->
  alpha y = a c ->
  ofHsl y = Build (r c) (g c) (b c) (a c) true FormatHsl.
Proof.
  intros (Wr & Wg & Wb & Wa & Cr & Cg & Cb & Ca) Hh Hs Hl Ha.
  pose proof (toHsl_range c) as (Rh & Rs & Rl & _).
  revert Hh Hs Hl Rh Rs Rl. unfold toHsl. rewrite rgbToHsl_unit.
  set (R := bound01 (r c) 255). set (G := bound01 (g c) 255).
  set (B := bound01 (b c) 255).
  assert (ER : R == r c / 255) by (apply bound01_id; lra).
  assert (EG : G == g c / 255) by (apply bound01_id; lra).
  assert (EB : B == b c / 255) by (apply bound01_id; lra).
  pose proof (rgbOfUnit_hslOfUnit R G B) as Core.
  destruct (hslOfUnit R G B) as [[h0 s0] l0]. cbn [h s l fst snd] in *.
  intros Hh Hs Hl Rh Rs Rl.
  unfold ofHsl. rewrite hslToRgb_unit.
  specialize (Core (boundHue (h y)) (boundFraction (s y)) (boundFraction (l y))).
  destruct Core as (C1 & C2 & C3).
  - subst R; qlra.
  - subst G; qlra.
  - subst B; qlra.
  - rewrite boundHue_small by lra. rewrite Hh. field.
  - rewrite boundFraction_unit by lra. exact Hs.
  - rewrite boundFraction_unit by lra. exact Hl.
  - destruct (rgbOfUnit _ _ _) as [[r' g'] b']. cbn [fst snd] in *.
    rewrite (make_eq r' g' b' (alpha y) (r c) (g c) (b c) (a c) true);
      try lra.
    + rewrite Cr, Cg, Cb, Ca. reflexivity.
    + rewrite C1, ER. field.
    + rewrite C2, EG. field.
    + rewrite C3, EB. field.
    + rewrite Ha. reflexivity.
Qed.

(** Reading a colour built from an HSL triple: lightness comes back;
    saturation comes back unless the colour is black or white (then it is
    0); the hue comes back, wrapped into [[0,360)], when the colour is
    chromatic, and is 0 otherwise. *)
Lemma toHsl_ofHsl (x : HSL) :
  0 <= s x -> s x <= 1 -> 0 <= l x -> l x <= 1 ->
  l (toHsl (ofHsl x)) == l x /\
  (0 < l x -> l x < 1 -> s (toHsl (ofHsl x)) == s x) /\
  (l x == 0 \/ l x == 1 -> s (toHsl (ofHsl x)) == 0) /\
  (0 < s x -> 0 < l x -> l x < 1 ->
   h (toHsl (ofHsl x)) == modulo (h x) 360) /\
  (s x == 0 \/ l x == 0 \/ l x == 1 -> h (toHsl (ofHsl x)) == 0) /\
  alpha (toHsl (ofHsl x)) = Qred (boundAlpha (alpha x)).
Proof.
  intros Hs0 Hs1 Hl0 Hl1.
  pose proof (boundFraction_unit (s x) Hs0 Hs1) as ES.
  pose proof (boundFraction_unit (l x) Hl0 Hl1) as EL.
  pose proof (modulo_range (h x) 360 ltac:(lra)) as (Mo0 & Mo1).
  unfold ofHsl. rewrite hslToRgb_unit.
  set (H := boundHue (h x)). set (S := boundFraction (s x)) in *.
  set (L := boundFraction (l x)) in *.
  assert (Core : exists H', 0 <= H' /\ H' < 1 /\ H' * 360 == modulo (h x) 360 /\
            fst (fst (rgbOfUnit H S L)) == fst (fst (rgbOfUnit H' S L)) /\
            snd (fst (rgbOfUnit H S L)) == snd (fst (rgbOfUnit H' S L)) /\
            snd (rgbOfUnit H S L) == snd (rgbOfUnit H' S L)).
  { destruct (boundHue_modulo (h x)) as [E|(E1 & E0)]; fold H in E || fold H in E1.
    - exists H. splits; try reflexivity; try qlra.
    - exists 0. splits; try lra. all: apply rgbOfUnit_hue_one; exact E1. }
  destruct Core as (H' & H0 & H1 & HM & K1 & K2 & K3).
  clearbody H. clearbody S. clearbody L.
  pose proof (hslOfUnit_rgbOfUnit H' S L) as Core.
  destruct (rgbOfUnit H S L) as [[r' g'] b']. cbn [fst snd] in *.
  destruct (Core (r' / 255) (g' / 255) (b' / 255)) as ((Rr & Rg & Rb) & _);
    try lra; try (rewrite <- ?K1, <- ?K2, <- ?K3; field).
  assert (Br : 0 <= r' <= 255) by qlra.
  assert (Bg : 0 <= g' <= 255) by qlra.
  assert (Bb : 0 <= b' <= 255) by qlra.
  unfold toHsl, make. cbn [r g b a]. rewrite rgbToHsl_unit.
  set (R := bound01 (Qred (clamp 0 255 r')) 255).
  set (G := bound01 (Qred (clamp 0 255 g')) 255).
  set (B := bound01 (Qred (clamp 0 255 b')) 255).
  assert (bd : forall v, 0 <= v <= 255 -> bound01 (Qred (clamp 0 255 v)) 255 * 255 == v).
  { intros v Hv. pose proof (Qred_correct (clamp 0 255 v)) as E1.
    pose proof (clamp_id 0 255 v ltac:(lra) ltac:(lra)) as E2.
    rewrite bound01_id by lra. rewrite E1, E2. field. }
  destruct (Core R G B) as (_ & C1 & C2 & C3 & C4 & C5); try lra.
  { subst R. rewrite bd by lra. exact K1. }
  { subst G. rewrite bd by lra. exact K2. }
  { subst B. rewrite bd by lra. exact K3. }
  clearbody R. clearbody G. clearbody B.
  destruct (hslOfUnit R G B) as [[h0 s0] l0]. cbn [h s l alpha fst snd] in *.
  splits; try reflexivity; try (intros; lra).
Qed.

(** ** Hex strings *)

Lemma trimEnd_plain (s : string) : allChars plainChar s = true -> trimEnd s = s.
Proof.
  induction s as [|c s IH]; cbn [allChars trimEnd]; [reflexivity|].
  intros H. apply andb_prop in H as [Hc Hs]. rewrite (IH Hs).
  unfold plainChar in Hc. apply andb_prop in Hc as [Hsp _].
  apply negb_true_iff in Hsp. rewrite Hsp. destruct s; reflexivity.
Qed.

Lemma trim_plain (s : string) : allChars plainChar s = true -> trim s = s.
Proof.
  intros H. unfold trim.
  assert (E : trimStart s = s).
  { destruct s as [|c s]; [reflexivity|]. cbn [allChars] in H.
    apply andb_prop in H as [Hc _]. unfold plainChar in Hc.
    apply andb_prop in Hc as [Hsp _]. apply negb_true_iff in Hsp.
    cbn [trimStart]. rewrite Hsp. reflexivity. }
  rewrite E. apply trimEnd_plain. assumption.
Qed.

Lemma toLowerCase_plain (s : string) :
  allChars plainChar s = true -> toLowerCase s = s.
Proof.
  induction s as [|c s IH]; cbn [allChars toLowerCase]; [reflexivity|].
  intros H. apply andb_prop in H as [Hc Hs]. rewrite (IH Hs).
  unfold plainChar in Hc. apply andb_prop in Hc as [_ Hl].
  apply Ascii.eqb_eq in Hl. rewrite Hl. reflexivity.
Qed.

Lemma hexPairOk_all : forallb hexPairOk (map Z.of_nat (seq 0 256)) = true.
Proof. vm_compute. reflexivity. Qed.

Lemma hexPair (n : Z) :
  (0 <= n <= 255)%Z ->
  exists c1 c2,
    pad2 (toString16 n) = String c1 (String c2 EmptyString) /\
    parseIntFromHex c1 c2 = Some n /\
    plainChar c1 = true /\ plainChar c2 = true.
Proof.
  intros Hn.
  pose proof hexPairOk_all as A. rewrite forallb_forall in A.
  specialize (A n). unfold hexPairOk in A.
  assert (I : In n (map Z.of_nat (seq 0 256))).
  { apply in_map_iff. exists (Z.to_nat n). split; [lia|].
    apply in_seq. lia. }
  specialize (A I).
  destruct (pad2 (toString16 n)) as [|c1 [|c2 [|? ?]]]; try discriminate.
  destruct (parseIntFromHex c1 c2) as [m|] eqn:P; try discriminate.
  apply andb_prop in A as [A A2]. apply andb_prop in A as [A0 A1].
  apply Z.eqb_eq in A0. subst m.
  exists c1, c2. auto.
Qed.

Lemma Math_round_Z (n : Z) : Math_round (inject_Z n) = n.
Proof.
  unfold Math_round. apply Qfloor_unique.
  - lra.
  - rewrite inject_Z_plus. change (inject_Z 1) with 1. lra.
Qed.

Lemma Math_round_range (x : Q) :
  0 <= x -> x <= 255 -> (0 <= Math_round x <= 255)%Z.
Proof.
  intros H0 H1. unfold Math_round.
  pose proof (Qfloor_le (x + (1 # 2))) as F1.
  pose proof (Qlt_floor (x + (1 # 2))) as F2.
  rewrite inject_Z_plus in F2. change (inject_Z 1) with 1 in F2.
  split.
  - assert (L : inject_Z (-1) < inject_Z (Qfloor (x + (1 # 2)))).
    { change (inject_Z (-1)) with (-1). lra. }
    rewrite <- Zlt_Qlt in L. lia.
  - assert (L : inject_Z (Qfloor (x + (1 # 2))) < inject_Z 256).
    { change (inject_Z 256) with 256. lra. }
    rewrite <- Zlt_Qlt in L. lia.
Qed.

Lemma Qred_inject_Z (n : Z) : Qred (inject_Z n) = inject_Z n.
Proof. apply Qred_identity. cbn. apply Z.gcd_1_r. Qed.

Lemma make_Z (r g b : Z) (ok : bool) (fmt : Format) :
  (0 <= r <= 255)%Z -> (0 <= g <= 255)%Z -> (0 <= b <= 255)%Z ->
  make (inject_Z r) (inject_Z g) (inject_Z b) 1 ok fmt =
  Build (inject_Z r) (inject_Z g) (inject_Z b) 1 ok fmt.
Proof.
  intros Hr Hg Hb.
  assert (B : forall n, (0 <= n <= 255)%Z -> 0 <= inject_Z n <= 255).
  { intros n Hn. change 0 with (inject_Z 0). change 255 with (inject_Z 255).
    rewrite <- !Zle_Qle. lia. }
  rewrite (make_eq _ _ _ _ (inject_Z r) (inject_Z g) (inject_Z b) 1 ok);
    try reflexivity; auto; try lra.
  rewrite !Qred_inject_Z. reflexivity.
Qed.

Lemma hexDigit_range (c : ascii) (d : Z) : hexDigit c = Some d -> (0 <= d <= 15)%Z.
Proof.
  unfold hexDigit. set (n := Z.of_nat (nat_of_ascii c)). clearbody n.
  destruct ((48 <=? n) && (n <=? 57))%Z eqn:E1.
  - intros [= <-]. apply andb_prop in E1 as [A B].
    apply Z.leb_le in A, B. lia.
  - destruct ((97 <=? n) && (n <=? 102))%Z eqn:E2; [|discriminate].
    intros [= <-]. apply andb_prop in E2 as [A B].
    apply Z.leb_le in A, B. lia.
Qed.

Lemma parseIntFromHex_range (c1 c2 : ascii) (n : Z) :
  parseIntFromHex c1 c2 = Some n -> (0 <= n <= 255)%Z.
Proof.
  unfold parseIntFromHex.
  destruct (hexDigit c1) as [d1|] eqn:E1; [|discriminate].
  destruct (hexDigit c2) as [d2|] eqn:E2; [|discriminate].
  intros H. assert (E : n = (16 * d1 + d2)%Z) by congruence.
  apply hexDigit_range in E1. apply hexDigit_range in E2. lia.
Qed.

Lemma hexForms_range (body : string) (r g b : Z) :
  hexForms body = Some (r, g, b) ->
  (0 <= r <= 255)%Z /\ (0 <= g <= 255)%Z /\ (0 <= b <= 255)%Z.
Proof.
  unfold hexForms.
  destruct body as [|c1 [|c2 [|c3 [|c4 [|c5 [|c6 [|c7 body]]]]]]]; try discriminate.
  - destruct (parseIntFromHex c1 c1) eqn:E1; [|discriminate].
    destruct (parseIntFromHex c2 c2) eqn:E2; [|discriminate].
    destruct (parseIntFromHex c3 c3) eqn:E3; [|discriminate].
    intros [= <- <- <-].
    split; [|split]; eapply parseIntFromHex_range; eassumption.
  - destruct (parseIntFromHex c1 c2) eqn:E1; [|discriminate].
    destruct (parseIntFromHex c3 c4) eqn:E2; [|discriminate].
    destruct (parseIntFromHex c5 c6) eqn:E3; [|discriminate].
    intros [= <- <- <-].
    split; [|split]; eapply parseIntFromHex_range; eassumption.
Qed.

Lemma wf_round (c : t) :
  wf c ->
  (0 <= Math_round (r c) <= 255)%Z /\ (0 <= Math_round (g c) <= 255)%Z /\
  (0 <= Math_round (b c) <= 255)%Z.
Proof.
  intros (Wr & Wg & Wb & _).
  split; [|split]; apply Math_round_range; lra.
Qed.

Section Strings.
Context `{F : Formats}.

Lemma ofString_parseHex (color : string) (r g b : Z) :
  parseHex color = Some (r, g, b) ->
  ofString color =
  Build (inject_Z r) (inject_Z g) (inject_Z b) 1 true FormatHex.
Proof.
  unfold parseHex, ofString, stringInputToObject. intros P.
  destruct (toLowerCase (trim color)) as [|c0 rest] eqn:E.
  - cbn in P. discriminate.
  - rewrite P. apply hexForms_range in P as (Hr & Hg & Hb).
    apply make_Z; assumption.
Qed.

Lemma parseHex_toHexString (c : t) :
  wf c ->
  parseHex (toHexString c) =
  Some (Math_round (r c), Math_round (g c), Math_round (b c)).
Proof.
  intros W. destruct (wf_round c W) as (Hr & Hg & Hb).
  destruct (hexPair _ Hr) as (r1 & r2 & Er & Pr & Ar1 & Ar2).
  destruct (hexPair _ Hg) as (g1 & g2 & Eg & Pg & Ag1 & Ag2).
  destruct (hexPair _ Hb) as (b1 & b2 & Eb & Pb & Ab1 & Ab2).
  unfold toHexString, rgbToHex, parseHex. rewrite Er, Eg, Eb.
  cbn [append].
  set (S := String "#" _).
  assert (A : allChars plainChar S = true).
  { subst S. cbn [allChars]. rewrite Ar1, Ar2, Ag1, Ag2, Ab1, Ab2. reflexivity. }
  rewrite (trim_plain S A), (toLowerCase_plain S A). subst S.
  cbn [stripHash hexForms]. rewrite Pr, Pg, Pb. reflexivity.
Qed.

(** Reading back a hex string the class printed: the colour with the
    rounded channels, opaque and valid. *)
Lemma ofString_toHexString (c : t) :
  wf c ->
  ofString (toHexString c) =
  Build (inject_Z (Math_round (r c))) (inject_Z (Math_round (g c)))
        (inject_Z (Math_round (b c))) 1 true FormatHex.
Proof.
  intros W. apply ofString_parseHex. apply parseHex_toHexString. exact W.
Qed.

Lemma ofString_wf (color : string) : wf (ofString color).
Proof.
  unfold ofString.
  destruct (stringInputToObject color) as [[[[[r' g'] b'] a'] fmt]|];
    apply make_wf.
Qed.

End Strings.

Lemma wf_Z (r g b : Z) (ok : bool) (fmt : Format) :
  (0 <= r <= 255)%Z -> (0 <= g <= 255)%Z -> (0 <= b <= 255)%Z ->
  wf (Build (inject_Z r) (inject_Z g) (inject_Z b) 1 ok fmt).
Proof.
  intros Hr Hg Hb. rewrite <- make_Z by assumption. apply make_wf.
Qed.

Lemma toHexString_Z (r g b : Z) (ok : bool) (fmt : Format) :
  toHexString (Build (inject_Z r) (inject_Z g) (inject_Z b) 1 ok fmt) =
  String "#" (pad2 (toString16 r) ++ pad2 (toString16 g) ++ pad2 (toString16 b)).
Proof.
  unfold toHexString, rgbToHex. cbn [TinyColor.r TinyColor.g TinyColor.b].
  rewrite !Math_round_Z. reflexivity.
Qed.

(** ** Derived operations and the clamps of [App.tsx] *)

Lemma Qfloor_shift (y : Q) (k : Z) : Qfloor (y - inject_Z k) = (Qfloor y - k)%Z.
Proof.
  apply Qfloor_unique.
  - unfold Z.sub. rewrite inject_Z_plus, inject_Z_opp.
    pose proof (Qfloor_le y). lra.
  - replace (Qfloor y - k + 1)%Z with (Qfloor y + 1 - k)%Z by lia.
    unfold Z.sub. rewrite inject_Z_plus, inject_Z_opp.
    pose proof (Qlt_floor y). lra.
Qed.

Lemma modulo_shift_int (x m : Q) (k : Z) :
  0 < m -> modulo (x - m * inject_Z k) m == modulo x m.
Proof.
  intros Hm. unfold modulo.
  assert (E : (x - m * inject_Z k) / m == x / m - inject_Z k) by (field; lra).
  rewrite (Qfloor_comp _ _ E), Qfloor_shift.
  unfold Z.sub. rewrite inject_Z_plus, inject_Z_opp. lra.
Qed.

Lemma modulo_rem (x m : Q) : 0 < m -> modulo (rem x m) m == modulo x m.
Proof. intros Hm. unfold rem. apply modulo_shift_int. exact Hm. Qed.

Lemma clampJs_range (x : Q) :
  0 <= Math_max 0 (Math_min 1 x) /\ Math_max 0 (Math_min 1 x) <= 1.
Proof. unfold Math_max, Math_min. qcases; lra. Qed.

Lemma clampJs_id (x : Q) : 0 <= x -> x <= 1 -> Math_max 0 (Math_min 1 x) == x.
Proof. intros. unfold Math_max, Math_min. qcases; lra. Qed.

Lemma clampJs_low (x : Q) : x < 0 -> Math_max 0 (Math_min 1 x) = 0.
Proof. intros. unfold Math_max, Math_min. qcases; reflexivity. Qed.

Lemma clampJs_high (x : Q) : 1 < x -> Math_max 0 (Math_min 1 x) = 1.
Proof. intros. unfold Math_max, Math_min. qcases; reflexivity. Qed.

Lemma toHsl_ofHsl_fields (hh ss ll aa : Q) :
  0 <= ss -> ss <= 1 -> 0 <= ll -> ll <= 1 ->
  let y := toHsl (ofHsl (BuildHSL hh ss ll aa)) in
  l y == ll /\
  (0 < ll -> ll < 1 -> s y == ss) /\
  (ll == 0 \/ ll == 1 -> s y == 0) /\
  (0 < ss -> 0 < ll -> ll < 1 -> h y == modulo hh 360) /\
  (ss == 0 \/ ll == 0 \/ ll == 1 -> h y == 0) /\
  alpha y = Qred (boundAlpha aa).
Proof.
  intros S0 S1 L0 L1.
  exact (toHsl_ofHsl (BuildHSL hh ss ll aa) S0 S1 L0 L1).
Qed.

Lemma lighten_lightness (c : t) (amount : Q) :
  l (toHsl (lighten c amount)) == clamp01 (l (toHsl c) + amount / 100).
Proof.
  unfold lighten.
  pose proof (toHsl_range c) as (_ & (S0 & S1) & _ & _).
  pose proof (clamp01_range (l (toHsl c) + amount / 100)) as (L0 & L1).
  exact (proj1 (toHsl_ofHsl_fields _ _ _ _ S0 S1 L0 L1)).
Qed.

Lemma ofHsl_fields_eq (c : t) (hh ss ll aa : Q) :
  wf c ->
  hh == h (toHsl c) -> ss == s (toHsl c) -> ll == l (toHsl c) ->
  aa = a c ->
  ofHsl (BuildHSL hh ss ll aa) = Build (r c) (g c) (b c) (a c) true FormatHsl.
Proof.
  intros W Hh Hs Hl Ha.
  exact (ofHsl_toHsl_eq c (BuildHSL hh ss ll aa) W Hh Hs Hl Ha).
Qed.

Lemma lighten_zero (c : t) (amount : Q) :
  wf c -> amount == 0 ->
  lighten c amount = Build (r c) (g c) (b c) (a c) true FormatHsl.
Proof.
  intros W Z. unfold lighten.
  pose proof (toHsl_range c) as (_ & _ & (L0 & L1) & A).
  apply ofHsl_fields_eq.
  - exact W.
  - apply Qeq_refl.
  - apply Qeq_refl.
  - unfold clamp01, Math_min, Math_max. qcases; qlra.
  - exact A.
Qed.

Lemma modulo_comp (x y m : Q) : x == y -> modulo x m == modulo y m.
Proof.
  intros E. unfold modulo.
  assert (E' : x / m == y / m) by (rewrite E; reflexivity).
  rewrite (Qfloor_comp _ _ E'), E. reflexivity.
Qed.

Lemma rem_comp (x y m : Q) : x == y -> rem x m == rem y m.
Proof.
  intros E. unfold rem, trunc.
  assert (E' : x / m == y / m) by (rewrite E; reflexivity).
  destruct (Qlt_le_dec (x / m) 0), (Qlt_le_dec (y / m) 0); try (exfalso; lra).
  - rewrite (Qceiling_comp _ _ E'), E. reflexivity.
  - rewrite (Qfloor_comp _ _ E'), E. reflexivity.
Qed.

(** ** Naming *)

Lemma hueIndex_range (h : Q) : 0 <= h -> h < 360 -> (0 <= hueIndex h <= 5)%Z.
Proof.
  intros H0 H1. unfold hueIndex, Math_floor.
  assert (E : rem h 360 / 60 == h / 60).
  { rewrite (rem_small h 360 H0 H1). reflexivity. }
  rewrite (Qfloor_comp _ _ E).
  pose proof (Qfloor_le (h / 60)) as F1. pose proof (Qlt_floor (h / 60)) as F2.
  rewrite inject_Z_plus in F2. change (inject_Z 1) with 1 in F2.
  split.
  - assert (L : inject_Z (-1) < inject_Z (Qfloor (h / 60))).
    { change (inject_Z (-1)) with (-1). qlra. }
    rewrite <- Zlt_Qlt in L. lia.
  - assert (L : inject_Z (Qfloor (h / 60)) < inject_Z 6).
    { change (inject_Z 6) with 6. qlra. }
    rewrite <- Zlt_Qlt in L. lia.
Qed.

Lemma hueIndex_word (h : Q) :
  (0 <= hueIndex h <= 5)%Z ->
  exists w : string,
    element hueNames (hueIndex h) = Some w /\
    In w sixHues /\ w <> "Pink"%string /\
    forall s l : Q,
      colorNameOf h s l =
      trim (lightnessLabel l ++ " " ++ saturationLabel s ++ " " ++ w)%string.
Proof.
  intros R. unfold colorNameOf. set (k := hueIndex h) in *. clearbody k.
  assert (K : (k = 0 \/ k = 1 \/ k = 2 \/ k = 3 \/ k = 4 \/ k = 5)%Z) by lia.
  destruct K as [->|[->|[->|[->|[->| ->]]]]];
    eexists; (split; [reflexivity|]);
    (split; [cbn; tauto|]); (split; [discriminate|]); reflexivity.
Qed.

(** C8.  For every hue in [[0,360)] the sector index
    [floor((h % 360) / 60)] is one of 0..5: the lookup in [hueNames] is in
    bounds, the hue word of the name is one of Red, Orange, Yellow, Green,
    Blue, Purple, and it is never the seventh label, "Pink". *)
Theorem hueIndex_six_sectors (h : Q) :
  0 <= h -> h < 360 ->
  (0 <= hueIndex h <= 5)%Z /\
  exists w : string,
    element hueNames (hueIndex h) = Some w /\
    In w sixHues /\ w <> "Pink"%string /\
    forall s l : Q,
      colorNameOf h s l =
      trim (lightnessLabel l ++ " " ++ saturationLabel s ++ " " ++ w)%string.
Proof.
  intros H0 H1. pose proof (hueIndex_range h H0 H1) as R.
  split; [exact R | exact (hueIndex_word h R)].
Qed.

Lemma hueIndex_six_sectors_witness :
  (0 <= 200 /\ 200 < 360) /\
  (0 <= hueIndex 200 <= 5)%Z /\
  exists w : string,
    element hueNames (hueIndex 200) = Some w /\
    In w sixHues /\ w <> "Pink"%string /\
    forall s l : Q,
      colorNameOf 200 s l =
      trim (lightnessLabel l ++ " " ++ saturationLabel s ++ " " ++ w)%string.
Proof.
  split; [lra|]. apply (hueIndex_six_sectors 200); lra.
Defined.

(** Every colour reads a hue in [[0,360)], so the hue word of every name
    [generateColorName] returns is one of the six. *)
Lemma generateColorName_hue (c : t) :
  exists w : string,
    In w sixHues /\
    generateColorName c =
    trim (lightnessLabel (l (toHsl c)) ++ " " ++
          saturationLabel (s (toHsl c)) ++ " " ++ w)%string.
Proof.
  pose proof (toHsl_range c) as ((H0 & H1) & _).
  destruct (hueIndex_word (h (toHsl c)) (hueIndex_range _ H0 H1))
    as (w & _ & I & _ & E).
  exists w. split; [exact I|]. unfold generateColorName. apply E.
Qed.

Lemma saturationLabel_comp (s1 s2 : Q) :
  s1 == s2 -> saturationLabel s1 = saturationLabel s2.
Proof. intros E. unfold saturationLabel. qcases; reflexivity. Qed.

Lemma lightnessLabel_comp (l1 l2 : Q) :
  l1 == l2 -> lightnessLabel l1 = lightnessLabel l2.
Proof. intros E. unfold lightnessLabel. qcases; reflexivity. Qed.

Lemma hueIndex_comp (h1 h2 : Q) : h1 == h2 -> hueIndex h1 = hueIndex h2.
Proof.
  intros E. unfold hueIndex, Math_floor. apply Qfloor_comp.
  rewrite (rem_comp h1 h2 360 E). reflexivity.
Qed.

(** C7.  [generateColorName] is a function of the colour's (h, s, l) only;
    the saturation label is "Vibrant" exactly when s > 0.5 and "Muted"
    otherwise; the lightness label is "Light" exactly when l > 0.7, "Dark"
    exactly when l < 0.3 and empty otherwise; the name is
    "{lightness} {saturation} {hue}" trimmed; h = 0, s = 0.7, l = 0.5 is
    named "Vibrant Red". *)
Theorem generateColorName_spec :
  (forall c : t,
     generateColorName c =
     colorNameOf (h (toHsl c)) (s (toHsl c)) (l (toHsl c))) /\
  (forall h1 s1 l1 h2 s2 l2 : Q,
     h1 == h2 -> s1 == s2 -> l1 == l2 ->
     colorNameOf h1 s1 l1 = colorNameOf h2 s2 l2) /\
  (forall s : Q,
     (saturationLabel s = "Vibrant"%string <-> 0.5 < s) /\
     (saturationLabel s = "Muted"%string <-> s <= 0.5)) /\
  (forall l : Q,
     (lightnessLabel l = "Light"%string <-> 0.7 < l) /\
     (lightnessLabel l = "Dark"%string <-> l < 0.3) /\
     (lightnessLabel l = ""%string <-> 0.3 <= l /\ l <= 0.7)) /\
  (forall h s l : Q,
     colorNameOf h s l =
     trim (lightnessLabel l ++ " " ++ saturationLabel s ++ " " ++
           show (element hueNames (hueIndex h)))%string) /\
  colorNameOf 0 0.7 0.5 = "Vibrant Red"%string /\
  generateColorName (ofHsl (BuildHSL 0 0.7 0.5 1)) =
  "Vibrant Red"%string.
Proof.
  split; [reflexivity|].
  split.
  { intros h1 s1 l1 h2 s2 l2 Eh Es El. unfold colorNameOf.
    rewrite (saturationLabel_comp s1 s2 Es), (lightnessLabel_comp l1 l2 El),
      (hueIndex_comp h1 h2 Eh). reflexivity. }
  split.
  { intros s. unfold saturationLabel.
    destruct (Qlt_le_dec 0.5 s); split; split; intros H;
      try reflexivity; try discriminate; try assumption; exfalso; lra. }
  split.
  { intros l. unfold lightnessLabel.
    destruct (Qlt_le_dec 0.7 l); [|destruct (Qlt_le_dec l 0.3)];
      (split; [|split]); split; intros H;
      try reflexivity; try discriminate; try assumption; try lra;
      exfalso; lra. }
  split; [reflexivity|].
  split; vm_compute; reflexivity.
Qed.

(** ** Initial palette *)

Lemma baseColor_hsl (random : Q) :
  0 <= random -> random < 1 ->
  h (toHsl (baseColor random)) == random * 360 /\
  s (toHsl (baseColor random)) == 0.7 /\
  l (toHsl (baseColor random)) == 0.5.
Proof.
  intros H0 H1. unfold baseColor.
  destruct (toHsl_ofHsl_fields (random * 360) 0.7 0.5 1)
    as (El & Es & _ & Eh & _); try lra.
  split; [|split].
  - rewrite Eh by lra. apply modulo_small; lra.
  - apply Es; lra.
  - exact El.
Qed.

Lemma spin_hsl (c : t) (amount : Q) :
  0 <= amount ->
  0 < s (toHsl c) -> 0 < l (toHsl c) -> l (toHsl c) < 1 ->
  h (toHsl (spin c amount)) == modulo (h (toHsl c) + amount) 360 /\
  s (toHsl (spin c amount)) == s (toHsl c) /\
  l (toHsl (spin c amount)) == l (toHsl c).
Proof.
  intros Ha Hs Hl0 Hl1. unfold spin.
  pose proof (toHsl_range c) as ((H0 & H1) & (S0 & S1) & (L0 & L1) & _).
  pose proof (rem_nonneg (h (toHsl c) + amount) 360 ltac:(lra) ltac:(lra)) as R.
  pose proof (modulo_range (h (toHsl c) + amount) 360 ltac:(lra)) as (M0 & M1).
  destruct (Qlt_le_dec (rem (h (toHsl c) + amount) 360) 0) as [N|N];
    [exfalso; lra|].
  destruct (toHsl_ofHsl_fields (rem (h (toHsl c) + amount) 360)
              (s (toHsl c)) (l (toHsl c)) (alpha (toHsl c)) S0 S1 L0 L1)
    as (El & Es & _ & Eh & _).
  split; [|split].
  - rewrite Eh by assumption. apply modulo_rem. lra.
  - apply Es; assumption.
  - exact El.
Qed.

Lemma format_ofHsl (x : HSL) : format (ofHsl x) = FormatHsl.
Proof.
  unfold ofHsl. destruct (hslToRgb (h x) (s x) (l x)) as [[r' g'] b'].
  reflexivity.
Qed.

Lemma Math_round_comp (x y : Q) : x == y -> Math_round x = Math_round y.
Proof.
  intros E. unfold Math_round. apply Qfloor_comp. rewrite E. reflexivity.
Qed.

Lemma Math_round_near (x : Q) :
  x - (1 # 2) < inject_Z (Math_round x) /\ inject_Z (Math_round x) <= x + (1 # 2).
Proof.
  unfold Math_round.
  pose proof (Qfloor_le (x + (1 # 2))) as F1.
  pose proof (Qlt_floor (x + (1 # 2))) as F2.
  rewrite inject_Z_plus in F2. change (inject_Z 1) with 1 in F2.
  split; lra.
Qed.

Lemma percent_range (x : Q) :
  0 <= x -> x <= 1 ->
  0 <= inject_Z (Math_round (x * 100)) / 100 /\
  inject_Z (Math_round (x * 100)) / 100 <= 1.
Proof.
  intros H0 H1. destruct (Math_round_near (x * 100)) as (N0 & N1).
  assert (L : (0 <= Math_round (x * 100) <= 100)%Z).
  { split.
    - assert (K : inject_Z (-1) < inject_Z (Math_round (x * 100))).
      { change (inject_Z (-1)) with (-1). lra. }
      rewrite <- Zlt_Qlt in K. lia.
    - assert (K : inject_Z (Math_round (x * 100)) < inject_Z 101).
      { change (inject_Z 101) with 101. lra. }
      rewrite <- Zlt_Qlt in K. lia. }
  destruct L as (L0 & L1). rewrite Zle_Qle in L0, L1.
  change (inject_Z 0) with 0 in L0. change (inject_Z 100) with 100 in L1.
  split; qlra.
Qed.

(** What the clone of a colour made from HSL reads: the rounded triple. *)
Lemma rereadHsl_fields (c : t) :
  let H := inject_Z (Math_round (h (toHsl c))) in
  let S := inject_Z (Math_round (s (toHsl c) * 100)) / 100 in
  let L := inject_Z (Math_round (l (toHsl c) * 100)) / 100 in
  let y := toHsl (rereadHsl c) in
  l y == L /\
  (0 < L -> L < 1 -> s y == S) /\
  (0 < S -> 0 < L -> L < 1 -> h y == modulo H 360).
Proof.
  intros H S L y.
  pose proof (toHsl_range c) as (_ & (S0 & S1) & (L0 & L1) & _).
  destruct (percent_range _ S0 S1) as (PS0 & PS1).
  destruct (percent_range _ L0 L1) as (PL0 & PL1).
  destruct (toHsl_ofHsl_fields H S L
              (inject_Z (Math_round (a c * 100)) / 100) PS0 PS1 PL0 PL1)
    as (El & Es & _ & Eh & _).
  splits; assumption.
Qed.

Lemma clone_baseColor (random : Q) :
  0 <= random -> random < 1 ->
  let degrees := inject_Z (Math_round (random * 360)) in
  clone (baseColor random) = rereadHsl (baseColor random) /\
  h (toHsl (clone (baseColor random))) == modulo degrees 360 /\
  s (toHsl (clone (baseColor random))) == 0.7 /\
  l (toHsl (clone (baseColor random))) == 0.5.
Proof.
  intros H0 H1 degrees.
  destruct (baseColor_hsl random H0 H1) as (Bh & Bs & Bl).
  assert (C : clone (baseColor random) = rereadHsl (baseColor random)).
  { unfold clone. unfold baseColor at 1. rewrite format_ofHsl. reflexivity. }
  split; [exact C|]. rewrite C.
  pose proof (rereadHsl_fields (baseColor random)) as R. cbv zeta in R.
  assert (Rs : Math_round (s (toHsl (baseColor random)) * 100) = 70%Z).
  { rewrite (Math_round_comp _ (inject_Z 70)).
    - apply Math_round_Z.
    - rewrite Bs. reflexivity. }
  assert (Rl : Math_round (l (toHsl (baseColor random)) * 100) = 50%Z).
  { rewrite (Math_round_comp _ (inject_Z 50)).
    - apply Math_round_Z.
    - rewrite Bl. reflexivity. }
  assert (Rh : Math_round (h (toHsl (baseColor random))) =
               Math_round (random * 360)).
  { apply Math_round_comp. exact Bh. }
  rewrite Rs, Rl, Rh in R. fold degrees in R.
  change (inject_Z 70 / 100) with (70 / 100) in R.
  change (inject_Z 50 / 100) with (50 / 100) in R.
  destruct R as (El & Es & Eh).
  splits.
  - apply Eh; qlra.
  - rewrite Es; qlra.
  - rewrite El. qlra.
Qed.

Lemma modulo_modulo_add (x y : Q) :
  modulo (modulo x 360 + y) 360 == modulo (x + y) 360.
Proof.
  unfold modulo at 2.
  rewrite <- (modulo_shift_int (x + y) 360 (Qfloor (x / 360))) by lra.
  apply modulo_comp. ring.
Qed.

Section Palette.
Context `{F : Formats}.

(** C9 (as amended).  The initial palette has five entries built from one
    base colour of hue [random * 360] in [[0,360)], saturation 0.7 and
    lightness 0.5.  The slots are not spun from the base colour itself but
    from its clone, which reads the base hue rounded to whole degrees (at
    most half a degree off; saturation and lightness stay 0.7 and 0.5).
    Slot [i] holds the hex, the name and the four strings of that clone
    spun by [i * 30] degrees: its hue is the rounded base hue plus [30 i]
    modulo 360, its saturation 0.7 and its lightness 0.5, in steps of 30
    degrees, 120 degrees in all. *)
Theorem initialPalette_spec (random : Q) :
  0 <= random -> random < 1 ->
  let base := baseColor random in
  let degrees := inject_Z (Math_round (random * 360)) in
  (0 <= random * 360 /\ random * 360 < 360 /\
   h (toHsl base) == random * 360 /\
   s (toHsl base) == 0.7 /\ l (toHsl base) == 0.5) /\
  (Qabs (degrees - random * 360) <= 1 # 2 /\
   h (toHsl (clone base)) == modulo degrees 360 /\
   s (toHsl (clone base)) == 0.7 /\ l (toHsl (clone base)) == 0.5) /\
  List.length (initialPalette random) = 5%nat /\
  forall i : nat,
    (i < 5)%nat ->
    let color := spin (clone base) (inject_Z (Z.of_nat i) * 30) in
    nth_error (initialPalette random) i =
      Some (BuildColorData (toHexString color) (generateColorName color)
              (toRgbString color) (toHslString color)
              (toHsvString color) (toCmykString color)) /\
    h (toHsl color) == modulo (degrees + inject_Z (Z.of_nat i) * 30) 360 /\
    s (toHsl color) == 0.7 /\
    l (toHsl color) == 0.5.
Proof.
  intros H0 H1 base degrees.
  destruct (baseColor_hsl random H0 H1) as (Bh & Bs & Bl). fold base in Bh, Bs, Bl.
  destruct (clone_baseColor random H0 H1) as (_ & Ch & Cs & Cl).
  fold base degrees in Ch, Cs, Cl.
  split; [splits; try assumption; lra|].
  split.
  { splits; try assumption.
    destruct (Math_round_near (random * 360)) as (N0 & N1). fold degrees in N0, N1.
    apply Qabs_Qle_condition. split; lra. }
  split; [unfold initialPalette; rewrite length_map, length_seq; reflexivity|].
  intros i Hi color.
  assert (Ia : 0 <= inject_Z (Z.of_nat i) * 30).
  { assert (0 <= inject_Z (Z.of_nat i)).
    { change 0 with (inject_Z 0). rewrite <- Zle_Qle. lia. }
    lra. }
  destruct (spin_hsl (clone base) (inject_Z (Z.of_nat i) * 30) Ia)
    as (Eh & Es & El); try lra.
  fold color in Eh, Es, El.
  split; [|split; [|split]].
  - unfold initialPalette. fold base.
    rewrite nth_error_map, nth_error_seq.
    apply Nat.ltb_lt in Hi. rewrite Hi. reflexivity.
  - rewrite Eh.
    rewrite (modulo_comp _ (modulo degrees 360 + inject_Z (Z.of_nat i) * 30))
      by (rewrite Ch; reflexivity).
    apply modulo_modulo_add.
  - lra.
  - lra.
Qed.

End Palette.

Lemma initialPalette_spec_witness :
  (0 <= (1 # 7) /\ (1 # 7) < 1) /\
  let base := baseColor (1 # 7) in
  let degrees := inject_Z (Math_round ((1 # 7) * 360)) in
  (0 <= (1 # 7) * 360 /\ (1 # 7) * 360 < 360 /\
   h (toHsl base) == (1 # 7) * 360 /\
   s (toHsl base) == 0.7 /\ l (toHsl base) == 0.5) /\
  (Qabs (degrees - (1 # 7) * 360) <= 1 # 2 /\
   h (toHsl (clone base)) == modulo degrees 360 /\
   s (toHsl (clone base)) == 0.7 /\ l (toHsl (clone base)) == 0.5) /\
  List.length (initialPalette (F := hexOnly) (1 # 7)) = 5%nat /\
  forall i : nat,
    (i < 5)%nat ->
    let color := spin (clone base) (inject_Z (Z.of_nat i) * 30) in
    nth_error (initialPalette (F := hexOnly) (1 # 7)) i =
      Some (BuildColorData (toHexString color) (generateColorName color)
              (toRgbString (Formats := hexOnly) color)
              (toHslString (Formats := hexOnly) color)
              (toHsvString (Formats := hexOnly) color)
              (toCmykString (Formats := hexOnly) color)) /\
    h (toHsl color) == modulo (degrees + inject_Z (Z.of_nat i) * 30) 360 /\
    s (toHsl color) == 0.7 /\
    l (toHsl color) == 0.5.
Proof.
  split; [lra|].
  apply (initialPalette_spec (F := hexOnly) (1 # 7)); lra.
Defined.

(** The slots are not the base colour spun.  With [Math.random()] at 0.999
    the base colour has hue 359.64 and is a "Vibrant Purple", and so is the
    base colour spun by 0 degrees; its clone reads the hue 360, that is 0,
    and slot 0 is a "Vibrant Red".  With [Math.random()] at 1/7 (hue
    51.43, read as 51) slot 0 has another hex than the base colour. *)
Lemma initialPalette_not_base_spun :
  (h (toHsl (baseColor (999 # 1000))) == 359.64 /\
   generateColorName (baseColor (999 # 1000)) = "Vibrant Purple"%string /\
   generateColorName (spin (baseColor (999 # 1000)) 0) =
     "Vibrant Purple"%string /\
   h (toHsl (clone (baseColor (999 # 1000)))) == 0 /\
   map name (initialPalette (F := hexOnly) (999 # 1000)) =
     ["Vibrant Red"; "Vibrant Red"; "Vibrant Orange"; "Vibrant Orange";
      "Vibrant Yellow"]%string) /\
  (toHexString (baseColor (1 # 7)) = "#d9bf26"%string /\
   toHexString (spin (baseColor (1 # 7)) 0) = "#d9bf26"%string /\
   map hex (initialPalette (F := hexOnly) (1 # 7)) =
     ["#d9be26"; "#9ad926"; "#41d926"; "#26d965"; "#26d9be"]%string).
Proof.
  splits; vm_compute; reflexivity.
Qed.

(** ** Shade ramp *)

Lemma Forall2_head {A B : Type} (P : A -> B -> Prop) (x : A) (y : B)
  (xs : list A) (ys : list B) :
  Forall2 P (x :: xs) (y :: ys) -> P x y.
Proof. intros H. inversion H. assumption. Qed.

Lemma clamp01_comp (x y : Q) : x == y -> clamp01 x == clamp01 y.
Proof. intros E. unfold clamp01, Math_min, Math_max. qcases; lra. Qed.

Lemma toHsl_ext (c c' : t) :
  r c = r c' -> g c = g c' -> b c = b c' -> a c = a c' -> toHsl c = toHsl c'.
Proof. intros Er Eg Eb Ea. unfold toHsl. rewrite Er, Eg, Eb, Ea. reflexivity. Qed.

Lemma toHexString_ext (c c' : t) :
  r c = r c' -> g c = g c' -> b c = b c' -> toHexString c = toHexString c'.
Proof. intros Er Eg Eb. unfold toHexString. rewrite Er, Eg, Eb. reflexivity. Qed.

Lemma lighten_ext (c c' : t) (amount : Q) :
  toHsl c = toHsl c' -> lighten c amount = lighten c' amount.
Proof. intros E. unfold lighten. rewrite E. reflexivity. Qed.

(** Reading the hex print of a colour with whole channels gives the colour
    back. *)
Lemma rereadHex_Z (r0 g0 b0 : Z) :
  (0 <= r0 <= 255)%Z -> (0 <= g0 <= 255)%Z -> (0 <= b0 <= 255)%Z ->
  rereadHex (Build (inject_Z r0) (inject_Z g0) (inject_Z b0) 1 true FormatHex) =
  Build (inject_Z r0) (inject_Z g0) (inject_Z b0) 1 true FormatHex.
Proof.
  intros Hr Hg Hb. unfold rereadHex.
  rewrite (parseHex_toHexString _ (wf_Z r0 g0 b0 true FormatHex Hr Hg Hb)).
  cbn [r g b]. rewrite !Math_round_Z. apply make_Z; assumption.
Qed.

Lemma make_black : make 0 0 0 1 false FormatNone = black.
Proof. vm_compute. reflexivity. Qed.

Lemma clone_black :
  clone black = Build 0 0 0 1 true FormatHex.
Proof. vm_compute. reflexivity. Qed.

(** The clone of a colour made from a string has the channels of the
    colour. *)
Lemma clone_ofString `{F : Formats} (x : string) :
  r (clone (ofString x)) = r (ofString x) /\
  g (clone (ofString x)) = g (ofString x) /\
  b (clone (ofString x)) = b (ofString x) /\
  a (clone (ofString x)) = a (ofString x).
Proof.
  unfold ofString, stringInputToObject.
  destruct (toLowerCase (trim x)) as [|c0 rest] eqn:E.
  - rewrite make_black, clone_black. splits; reflexivity.
  - destruct (hexForms (stripHash (String c0 rest))) as [[[r0 g0] b0]|] eqn:P.
    + apply hexForms_range in P as (Hr & Hg & Hb).
      rewrite (make_Z r0 g0 b0 true FormatHex Hr Hg Hb).
      unfold clone. cbn [format].
      rewrite (rereadHex_Z r0 g0 b0 Hr Hg Hb). splits; reflexivity.
    + destruct (otherNotation (String c0 rest)) as [[[[r0 g0] b0] a0]|].
      * unfold clone, make. cbn [format]. splits; reflexivity.
      * rewrite make_black, clone_black. splits; reflexivity.
Qed.

Lemma toHsl_clone_ofString `{F : Formats} (x : string) :
  toHsl (clone (ofString x)) = toHsl (ofString x).
Proof.
  destruct (clone_ofString x) as (Er & Eg & Eb & Ea).
  apply toHsl_ext; assumption.
Qed.

Lemma shadeColor_ofString `{F : Formats} (x : string) (i : nat) :
  shadeColor (ofString x) i = lighten (ofString x) (shadeFactor i * 50).
Proof.
  unfold shadeColor. apply lighten_ext. apply toHsl_clone_ofString.
Qed.

Lemma shadeColor_lightness `{F : Formats} (x : string) (i : nat) (offset : Q) :
  shadeFactor i * 50 == offset ->
  l (toHsl (shadeColor (ofString x) i)) ==
  clamp01 (l (toHsl (ofString x)) + offset / 100).
Proof.
  intros E. rewrite shadeColor_ofString, lighten_lightness.
  apply clamp01_comp. rewrite E. reflexivity.
Qed.

Section Shades.
Context `{F : Formats}.

(** C1 (as amended).  With the five steps of [getShades] the amounts
    passed to [lighten], [(i - 2) * 0.2 * 50], are -20, -10, 0, +10, +20 on
    the 0-100 lightness scale: shade [i] is the clone of the base colour
    lightened by the [i]-th of them.  The middle amount is 0, and the
    middle shade has the hex string of the base colour. *)
Theorem getShades_offsets (hex : string) :
  let base := ofString hex in
  getShades hex = map toHexString (map (shadeColor base) (seq 0 5)) /\
  (forall i : nat,
     shadeColor base i = lighten (clone base) (shadeFactor i * 50)) /\
  Forall2 (fun i offset => shadeFactor i * 50 == offset) (seq 0 5) codeOffsets /\
  nth_error (getShades hex) 2 = Some (toHexString base).
Proof.
  intros base. split; [|split; [|split]].
  - unfold getShades. fold base. rewrite map_map. reflexivity.
  - intros i. unfold shadeColor. reflexivity.
  - unfold codeOffsets. repeat constructor; vm_compute; reflexivity.
  - unfold getShades. fold base.
    rewrite nth_error_map, nth_error_seq. cbn [Nat.ltb Nat.leb option_map Nat.add].
    unfold base. rewrite shadeColor_ofString.
    rewrite (lighten_zero (ofString hex)) by
      (try apply ofString_wf; vm_compute; reflexivity).
    reflexivity.
Qed.

End Shades.

(** C1, as the specification states it, fails.  The first amount passed to
    [lighten] is -20, not -40, and from mid-gray the first shade is about 20
    points lighter than the specification's 40 points darker. *)
Lemma getShades_not_specOffsets :
  (shadeFactor 0 * 50 == -20 /\ ~ shadeFactor 0 * 50 == -40) /\
  0.19 < l (toHsl (shadeColor (ofString (F := hexOnly) "#808080") 0)) -
         clamp01 (l (toHsl (ofString (F := hexOnly) "#808080")) + -40 / 100) /\
  ~ shadesFollow specOffsets (ofString (F := hexOnly) "#808080").
Proof.
  split; [split; [vm_compute; reflexivity | vm_compute; discriminate]|].
  split; [vm_compute; reflexivity|].
  intros H. unfold shadesFollow, specOffsets in H.
  apply Forall2_head in H. vm_compute in H. discriminate.
Qed.

(** ** Bulk adjustment *)

Lemma adjustHsl_range (adj : Adjustments) (c : HSL) :
  (0 <= s (adjustHsl adj c) /\ s (adjustHsl adj c) <= 1) /\
  (0 <= l (adjustHsl adj c) /\ l (adjustHsl adj c) <= 1).
Proof.
  unfold adjustHsl. cbn [s l]. split; apply clampJs_range.
Qed.

Lemma adjustColor_hsl `{F : Formats} (adj : Adjustments) (hex : string) :
  let y := adjustHsl adj (toHsl (ofString hex)) in
  let z := toHsl (adjustColor adj hex) in
  l z == l y /\
  (0 < l y -> l y < 1 -> s z == s y) /\
  (l y == 0 \/ l y == 1 -> s z == 0) /\
  (0 < s y -> 0 < l y -> l y < 1 -> h z == modulo (h y) 360) /\
  (s y == 0 \/ l y == 0 \/ l y == 1 -> h z == 0).
Proof.
  intros y z.
  destruct (adjustHsl_range adj (toHsl (ofString hex))) as ((S0 & S1) & (L0 & L1)).
  fold y in S0, S1, L0, L1.
  pose proof (toHsl_ofHsl y S0 S1 L0 L1) as (A & B & C & D & E & _).
  repeat split; assumption.
Qed.

Section Adjust.
Context `{F : Formats}.

(** C5.  Whatever the palette entry and the adjustment vector, the
    saturation and lightness that lines 64-65 compute lie in [[0,1]], and
    are exactly 0 when the sum is below 0 and exactly 1 when it is above
    1; the colour built from them reads the same lightness, and the same
    saturation or 0, so its saturation and lightness lie in [[0,1]] too. *)
Theorem adjust_clamps (adj : Adjustments) (stored : string) :
  let c := toHsl (ofString stored) in
  let y := adjustHsl adj c in
  let z := toHsl (adjustColor adj stored) in
  (0 <= s y /\ s y <= 1) /\ (0 <= l y /\ l y <= 1) /\
  (s c + saturation adj / 100 < 0 -> s y = 0) /\
  (1 < s c + saturation adj / 100 -> s y = 1) /\
  (l c + brightness adj / 100 < 0 -> l y = 0) /\
  (1 < l c + brightness adj / 100 -> l y = 1) /\
  (0 <= s z /\ s z <= 1) /\ (0 <= l z /\ l z <= 1) /\
  l z == l y /\ (s z == s y \/ s z == 0) /\
  (forall prev : list ColorData,
     adjustPalette adj prev =
     map (fun color => colorData (adjustColor adj (hex color))) prev).
Proof.
  intros c y z.
  destruct (adjustHsl_range adj c) as ((S0 & S1) & (L0 & L1)). fold y in S0, S1, L0, L1.
  destruct (adjustColor_hsl adj stored) as (A & B & C & _). fold c y z in A, B, C.
  pose proof (toHsl_range (adjustColor adj stored)) as (_ & (Z0 & Z1) & (Z2 & Z3) & _).
  fold z in Z0, Z1, Z2, Z3.
  splits; try assumption.
  - intros H. apply clampJs_low. exact H.
  - intros H. apply clampJs_high. exact H.
  - intros H. apply clampJs_low. exact H.
  - intros H. apply clampJs_high. exact H.
  - destruct (Qeq_dec (l y) 0) as [E0|N0]; [right; apply C; left; exact E0|].
    destruct (Qeq_dec (l y) 1) as [E1|N1]; [right; apply C; right; exact E1|].
    left. apply B; lra.
  - reflexivity.
Qed.


End Adjust.



Section Zero.
Context `{F : Formats}.

(** The zero adjustment of a hex string the engine stores: the colour
    with the channels the string spells, hence the same string. *)
Lemma adjustColor_zero (c : t) :
  wf c ->
  adjustColor noAdjustment (toHexString c) =
    Build (inject_Z (Math_round (r c))) (inject_Z (Math_round (g c)))
          (inject_Z (Math_round (b c))) 1 true FormatHsl /\
  toHexString (adjustColor noAdjustment (toHexString c)) = toHexString c /\
  toHexString (ofString (toHexString c)) = toHexString c.
Proof.
  intros W. destruct (wf_round c W) as (Rr & Rg & Rb).
  pose proof (ofString_toHexString c W) as E.
  set (c1 := Build _ _ _ 1 true FormatHex) in E.
  assert (W1 : wf c1) by (apply wf_Z; assumption).
  assert (A : adjustColor noAdjustment (toHexString c) =
              Build (r c1) (g c1) (b c1) (a c1) true FormatHsl).
  { unfold adjustColor. rewrite E. unfold adjustHsl, noAdjustment.
    cbn [hue saturation brightness].
    pose proof (toHsl_range c1) as ((H0 & H1) & (S0 & S1) & (L0 & L1) & A).
    apply (ofHsl_fields_eq c1).
    + exact W1.
    + rewrite rem_small by lra. lra.
    + rewrite clampJs_id; qlra.
    + rewrite clampJs_id; qlra.
    + exact A. }
  splits.
  - exact A.
  - rewrite A. unfold c1. cbn [r g b a]. rewrite toHexString_Z. reflexivity.
  - rewrite E. unfold c1. rewrite toHexString_Z. reflexivity.
Qed.

Lemma adjustPalette_hex_only (adj : Adjustments) (p q : list ColorData) :
  map hex p = map hex q -> adjustPalette adj p = adjustPalette adj q.
Proof.
  intros E. unfold adjustPalette.
  rewrite <- (map_map hex (fun x => colorData (adjustColor adj x)) p).
  rewrite <- (map_map hex (fun x => colorData (adjustColor adj x)) q).
  rewrite E. reflexivity.
Qed.

(** C6 (as amended).  On a palette whose hex strings are the ones the
    engine stores, the zero adjustment leaves every hex unchanged.  The
    entries are rebuilt from their hex alone: whatever names the palette
    had, the result is the same, so a name the user typed is replaced by
    the generated one. *)
Theorem adjustPalette_zero (prev : list ColorData) :
  Forall (fun color => storedHex (hex color)) prev ->
  map hex (adjustPalette noAdjustment prev) = map hex prev /\
  (forall q : list ColorData,
     map hex q = map hex prev ->
     adjustPalette noAdjustment q = adjustPalette noAdjustment prev).
Proof.
  intros H. split.
  - unfold adjustPalette.
    induction H as [|e prev (c & W & E) Hs IH]; [reflexivity|].
    cbn [map]. rewrite IH. f_equal. cbn [colorData hex]. rewrite E.
    apply (adjustColor_zero c W).
  - intros q E. apply adjustPalette_hex_only. exact E.
Qed.

(** C2.  [adjustPalette] reads nothing of an entry but its stored hex,
    and applying the same non-zero adjustment twice does not give what
    applying it once gives: adjustments compound.  A hue adjustment of 60
    degrees takes red to yellow, and yellow to green. *)
Theorem adjustPalette_cumulative :
  (forall (adj : Adjustments) (p q : list ColorData),
     map hex p = map hex q -> adjustPalette adj p = adjustPalette adj q) /\
  exists (p : list ColorData) (adj : Adjustments),
    ~ hue adj == 0 /\
    map hex p = ["#ff0000"%string] /\
    map hex (adjustPalette adj p) = ["#ffff00"%string] /\
    map hex (adjustPalette adj (adjustPalette adj p)) = ["#00ff00"%string] /\
    adjustPalette adj (adjustPalette adj p) <> adjustPalette adj p.
Proof.
  split.
  - intros adj p q E. apply adjustPalette_hex_only. exact E.
  - exists [colorData (ofString "#ff0000")], (BuildAdjustments 60 0 0).
    assert (E1 : map hex (adjustPalette (BuildAdjustments 60 0 0)
                  [colorData (ofString "#ff0000")]) = ["#ffff00"%string])
      by (vm_compute; reflexivity).
    assert (E2 : map hex (adjustPalette (BuildAdjustments 60 0 0)
                  (adjustPalette (BuildAdjustments 60 0 0)
                  [colorData (ofString "#ff0000")])) = ["#00ff00"%string])
      by (vm_compute; reflexivity).
    splits.
    + cbn [hue]. lra.
    + vm_compute. reflexivity.
    + exact E1.
    + exact E2.
    + intros C. rewrite C in E2. rewrite E1 in E2. clear C. discriminate E2.
Qed.

End Zero.

Lemma adjustPalette_zero_witness :
  let prev := initialPalette (F := hexOnly) (1 # 7) in
  Forall (fun color => storedHex (hex color)) prev /\
  map hex (adjustPalette (F := hexOnly) noAdjustment prev) = map hex prev /\
  (forall q : list ColorData,
     map hex q = map hex prev ->
     adjustPalette (F := hexOnly) noAdjustment q =
     adjustPalette (F := hexOnly) noAdjustment prev).
Proof.
  assert (H : Forall (fun color => storedHex (hex color))
                (initialPalette (F := hexOnly) (1 # 7))).
  { unfold initialPalette. apply Forall_map. apply Forall_forall.
    intros i _. exists (slotColor (baseColor (1 # 7)) i).
    split; [|reflexivity]. unfold slotColor, spin. apply ofHsl_wf. }
  split; [exact H|].
  apply (adjustPalette_zero (F := hexOnly) _ H).
Defined.

(** C6, as stated, fails: after the user has renamed an entry, the zero
    adjustment puts the generated name back. *)
Lemma adjustPalette_zero_resets_name :
  let p := handleNameChange 0 "Sunset"
             (handleColorChange (F := hexOnly) 0 "#ff0000"
                (initialPalette (F := hexOnly) 0)) in
  map hex (adjustPalette (F := hexOnly) noAdjustment p) = map hex p /\
  nth_error (map name p) 0 = Some "Sunset"%string /\
  nth_error (map name (adjustPalette (F := hexOnly) noAdjustment p)) 0 =
    Some "Vibrant Red"%string.
Proof.
  split; [|split]; vm_compute; reflexivity.
Qed.

(** ** Unreadable input and round trips *)

Lemma mapFrom_nth {A B : Type} (f : A -> nat -> B) (xs : list A) (k i : nat) (x : A) :
  nth_error xs i = Some x ->
  nth_error (mapFrom f k xs) i = Some (f x (k + i)%nat).
Proof.
  revert k i. induction xs as [|y xs IH]; intros k i H.
  - destruct i; discriminate.
  - destruct i as [|i]; cbn [nth_error mapFrom] in *.
    + injection H as ->. rewrite Nat.add_0_r. reflexivity.
    + rewrite (IH (S k) i H). f_equal. f_equal. lia.
Qed.

Lemma getShades_black_eval :
  map (fun i => toHexString (shadeColor black i)) (seq 0 5) =
  ["#000000"; "#000000"; "#000000"; "#1a1a1a"; "#333333"]%string.
Proof. vm_compute. reflexivity. Qed.

Section Construction.
Context `{F : Formats}.

(** C4 (as amended).  A colour string that cannot be read is not
    rejected: the constructor returns the colour black, opaque, flagged
    [isValid = false]; [handleColorChange], which tests nothing, stores
    the record of that colour, with hex "#000000", in the slot, and
    [getShades] returns the shade ramp of black. *)
Theorem unreadable_is_black (color : string) :
  stringInputToObject color = None ->
  ofString color = black /\
  isValid (ofString color) = false /\
  toHexString (ofString color) = "#000000"%string /\
  (forall (index : nat) (prev : list ColorData) (old : ColorData),
     nth_error prev index = Some old ->
     nth_error (handleColorChange index color prev) index =
       Some (colorData black) /\
     hex (colorData black) = "#000000"%string) /\
  getShades color =
    ["#000000"; "#000000"; "#000000"; "#1a1a1a"; "#333333"]%string.
Proof.
  intros N.
  assert (E : ofString color = black).
  { unfold ofString. rewrite N. apply make_black. }
  splits.
  - exact E.
  - rewrite E. reflexivity.
  - rewrite E. reflexivity.
  - intros index prev old H. split; [|reflexivity].
    unfold handleColorChange, mapi.
    rewrite (mapFrom_nth _ prev 0 index old H).
    cbn [Nat.add]. rewrite Nat.eqb_refl. cbn [negb]. rewrite E. reflexivity.
  - unfold getShades. rewrite E. apply getShades_black_eval.
Qed.

(** C10.  Reading a valid hex string, printing the colour and reading the
    print gives the same colour; and converting the channels of a colour
    to HSL and back gives the same channels, so each is recovered within
    1. *)
Theorem round_trips :
  (forall (color : string) (r g b : Z),
     parseHex color = Some (r, g, b) ->
     ofString (toHexString (ofString color)) = ofString color) /\
  (forall c : t,
     wf c ->
     let hsl := rgbToHsl (r c) (g c) (b c) in
     let rgb := hslToRgb (fst (fst hsl) * 360) (snd (fst hsl)) (snd hsl) in
     (fst (fst rgb) == r c /\ snd (fst rgb) == g c /\ snd rgb == b c) /\
     (Qabs (fst (fst rgb) - r c) <= 1 /\ Qabs (snd (fst rgb) - g c) <= 1 /\
      Qabs (snd rgb - b c) <= 1) /\
     ofHsl (toHsl c) = Build (r c) (g c) (b c) (a c) true FormatHsl).
Proof.
  split.
  - intros color r g b P.
    pose proof (hexForms_range _ _ _ _ P) as (Hr & Hg & Hb).
    rewrite (ofString_parseHex color r g b P).
    rewrite (ofString_toHexString _ (wf_Z r g b true FormatHex Hr Hg Hb)).
    cbn [TinyColor.r TinyColor.g TinyColor.b]. rewrite !Math_round_Z. reflexivity.
  - intros c W hsl rgb.
    assert (K : fst (fst rgb) == r c /\ snd (fst rgb) == g c /\ snd rgb == b c).
    { destruct W as (Wr & Wg & Wb & _).
      subst rgb hsl. rewrite hslToRgb_unit, rgbToHsl_unit.
      set (R := bound01 (r c) 255). set (G := bound01 (g c) 255).
      set (B := bound01 (b c) 255).
      assert (ER : R == r c / 255) by (apply bound01_id; lra).
      assert (EG : G == g c / 255) by (apply bound01_id; lra).
      assert (EB : B == b c / 255) by (apply bound01_id; lra).
      assert (BR : 0 <= R <= 1) by (apply bound01_range; lra).
      assert (BG : 0 <= G <= 1) by (apply bound01_range; lra).
      assert (BB : 0 <= B <= 1) by (apply bound01_range; lra).
      pose proof (hslOfUnit_range R G B BR BG BB) as Rg.
      pose proof (rgbOfUnit_hslOfUnit R G B) as Core.
      destruct (hslOfUnit R G B) as [[h0 s0] l0]. cbn [fst snd] in *.
      destruct Rg as ((H0 & H1) & (S0 & S1) & (L0 & L1)).
      assert (Eh : boundHue (h0 * 360) == h0).
      { rewrite boundHue_small by lra. field. }
      pose proof (boundFraction_unit s0 S0 S1) as Es.
      pose proof (boundFraction_unit l0 L0 L1) as El.
      destruct (Core (boundHue (h0 * 360)) (boundFraction s0) (boundFraction l0)
                  BR BG BB Eh Es El) as (C1 & C2 & C3).
      rewrite C1, C2, C3, ER, EG, EB. splits; field. }
    destruct K as (K1 & K2 & K3).
    splits; try assumption.
    + rewrite K1. setoid_replace (r c - r c) with 0 by ring. vm_compute. discriminate.
    + rewrite K2. setoid_replace (g c - g c) with 0 by ring. vm_compute. discriminate.
    + rewrite K3. setoid_replace (b c - b c) with 0 by ring. vm_compute. discriminate.
    + pose proof (toHsl_range c) as (_ & _ & _ & A).
      apply ofHsl_toHsl_eq; try reflexivity; assumption.
Qed.

End Construction.

Lemma unreadable_is_black_witness :
  stringInputToObject (F := hexOnly) "zzz" = None /\
  ofString (F := hexOnly) "zzz" = black /\
  isValid (ofString (F := hexOnly) "zzz") = false /\
  toHexString (ofString (F := hexOnly) "zzz") = "#000000"%string /\
  (forall (index : nat) (prev : list ColorData) (old : ColorData),
     nth_error prev index = Some old ->
     nth_error (handleColorChange (F := hexOnly) index "zzz" prev) index =
       Some (colorData (F := hexOnly) black) /\
     hex (colorData (F := hexOnly) black) = "#000000"%string) /\
  getShades (F := hexOnly) "zzz" =
    ["#000000"; "#000000"; "#000000"; "#1a1a1a"; "#333333"]%string.
Proof.
  split; [reflexivity|].
  apply (unreadable_is_black (F := hexOnly) "zzz"). reflexivity.
Defined.

(** C4, as stated, fails: the string "zzz" has no reading, and
    [handleColorChange] stores black for it in the slot, as [getShades]
    derives the shades of black from it; nothing is rejected. *)
Lemma unreadable_is_not_rejected :
  stringInputToObject (F := hexOnly) "zzz" = None /\
  map hex (handleColorChange (F := hexOnly) 1 "zzz"
             (initialPalette (F := hexOnly) 0)) =
    ["#d92626"; "#000000"; "#d9d926"; "#80d926"; "#26d926"]%string /\
  getShades (F := hexOnly) "zzz" =
    ["#000000"; "#000000"; "#000000"; "#1a1a1a"; "#333333"]%string.
Proof.
  split; [|split]; vm_compute; reflexivity.
Qed.

Lemma round_trips_witness :
  parseHex " #1A2b3C " = Some (26, 43, 60)%Z /\
  ofString (F := hexOnly) (toHexString (ofString (F := hexOnly) " #1A2b3C ")) =
    ofString (F := hexOnly) " #1A2b3C " /\
  wf (ofString (F := hexOnly) "#1a2b3c") /\
  ofHsl (toHsl (ofString (F := hexOnly) "#1a2b3c")) =
    Build (r (ofString (F := hexOnly) "#1a2b3c"))
          (g (ofString (F := hexOnly) "#1a2b3c"))
          (b (ofString (F := hexOnly) "#1a2b3c"))
          (a (ofString (F := hexOnly) "#1a2b3c")) true FormatHsl.
Proof.
  assert (P : parseHex " #1A2b3C " = Some (26, 43, 60)%Z) by reflexivity.
  assert (W : wf (ofString (F := hexOnly) "#1a2b3c")) by apply ofString_wf.
  split; [exact P|].
  split; [exact (proj1 (round_trips (F := hexOnly)) _ _ _ _ P)|].
  split; [exact W|].
  destruct (proj2 (round_trips (F := hexOnly)) _ W) as (_ & _ & E).
  exact E.
Defined.

(** * The handlers of the component *)

(** ** Editing one slot *)

Lemma mapFrom_length {A B : Type} (f : A -> nat -> B) (k : nat) (xs : list A) :
  List.length (mapFrom f k xs) = List.length xs.
Proof.
  revert k. induction xs as [|x xs IH]; intros k; cbn [mapFrom List.length];
    [reflexivity | rewrite IH; reflexivity].
Qed.

Lemma mapFrom_nth_error {A B : Type} (f : A -> nat -> B) (xs : list A) (k i : nat) :
  nth_error (mapFrom f k xs) i =
  option_map (fun x => f x (k + i)%nat) (nth_error xs i).
Proof.
  revert k i. induction xs as [|x xs IH]; intros k i.
  - destruct i; reflexivity.
  - destruct i as [|i]; cbn [mapFrom nth_error option_map].
    + rewrite Nat.add_0_r. reflexivity.
    + rewrite IH. replace (S k + i)%nat with (k + S i)%nat by lia. reflexivity.
Qed.

Lemma mapFrom_map {A B C : Type} (f : A -> nat -> B) (g : B -> C) (g' : A -> C)
  (k : nat) (xs : list A) :
  (forall x i, g (f x i) = g' x) ->
  map g (mapFrom f k xs) = map g' xs.
Proof.
  intros H. revert k. induction xs as [|x xs IH]; intros k; cbn [mapFrom map];
    [reflexivity | rewrite H, IH; reflexivity].
Qed.

Lemma mapFrom_unchanged {A : Type} (f : A -> nat -> A) (k : nat) (xs : list A) :
  (forall x i, (k <= i < k + List.length xs)%nat -> f x i = x) ->
  mapFrom f k xs = xs.
Proof.
  revert k. induction xs as [|x xs IH]; intros k H; cbn [mapFrom]; [reflexivity|].
  rewrite H by (cbn [List.length]; lia). f_equal.
  apply IH. intros y i Hi. apply H. cbn [List.length]. lia.
Qed.

Lemma mapFrom_ext {A B : Type} (f f' : A -> nat -> B) (k : nat) (xs : list A) :
  (forall x i, f x i = f' x i) -> mapFrom f k xs = mapFrom f' k xs.
Proof.
  intros H. revert k. induction xs as [|x xs IH]; intros k; cbn [mapFrom];
    [reflexivity | rewrite H, IH; reflexivity].
Qed.

Lemma mapFrom_mapFrom {A B C : Type} (f : A -> nat -> B) (g : B -> nat -> C)
  (k : nat) (xs : list A) :
  mapFrom g k (mapFrom f k xs) = mapFrom (fun x i => g (f x i) i) k xs.
Proof.
  revert k. induction xs as [|x xs IH]; intros k; cbn [mapFrom];
    [reflexivity | rewrite IH; reflexivity].
Qed.

(** X1.  [handleNameChange] changes the name of the slot [index] and
    nothing else: the palette keeps its length, every hex and every derived
    string stays, the other names stay; an index outside the palette
    changes nothing. *)
Theorem handleNameChange_spec (index : nat) (newName : string)
  (prev : list ColorData) :
  List.length (handleNameChange index newName prev) = List.length prev /\
  map hex (handleNameChange index newName prev) = map hex prev /\
  map rgb (handleNameChange index newName prev) = map rgb prev /\
  map hsl (handleNameChange index newName prev) = map hsl prev /\
  map hsv (handleNameChange index newName prev) = map hsv prev /\
  map cmyk (handleNameChange index newName prev) = map cmyk prev /\
  (forall i : nat,
     nth_error (handleNameChange index newName prev) i =
     option_map (fun color => if Nat.eqb i index then renamed newName color
                              else color)
                (nth_error prev i)) /\
  ((List.length prev <= index)%nat ->
   handleNameChange index newName prev = prev).
Proof.
  unfold handleNameChange, mapi. splits.
  - apply mapFrom_length.
  - apply mapFrom_map. intros x i. destruct (Nat.eqb i index); reflexivity.
  - apply mapFrom_map. intros x i. destruct (Nat.eqb i index); reflexivity.
  - apply mapFrom_map. intros x i. destruct (Nat.eqb i index); reflexivity.
  - apply mapFrom_map. intros x i. destruct (Nat.eqb i index); reflexivity.
  - apply mapFrom_map. intros x i. destruct (Nat.eqb i index); reflexivity.
  - intros i. rewrite mapFrom_nth_error. cbn [Nat.add]. reflexivity.
  - intros H. apply mapFrom_unchanged. intros x i Hi.
    destruct (Nat.eqb_spec i index); [lia | reflexivity].
Qed.

(** X2.  Renaming composes as assignments do: on one slot the last name
    wins, and renamings of two different slots commute. *)
Theorem handleNameChange_compose (i j : nat) (n1 n2 : string)
  (prev : list ColorData) :
  handleNameChange i n2 (handleNameChange i n1 prev) =
    handleNameChange i n2 prev /\
  (i <> j ->
   handleNameChange i n1 (handleNameChange j n2 prev) =
   handleNameChange j n2 (handleNameChange i n1 prev)).
Proof.
  unfold handleNameChange, mapi. split.
  - rewrite mapFrom_mapFrom. apply mapFrom_ext. intros x k.
    destruct (Nat.eqb k i); reflexivity.
  - intros N. rewrite !mapFrom_mapFrom. apply mapFrom_ext. intros x k.
    destruct (Nat.eqb_spec k i), (Nat.eqb_spec k j); try reflexivity.
    exfalso. apply N. congruence.
Qed.

Section Slots.
Context `{F : Formats}.

(** X3.  [handleColorChange] replaces the slot [index] by the record of
    the new colour and leaves the other slots as they are; the palette
    keeps its length, and an index outside the palette changes nothing. *)
Theorem handleColorChange_spec (index : nat) (newColor : string)
  (prev : list ColorData) :
  List.length (handleColorChange index newColor prev) = List.length prev /\
  (forall i : nat,
     nth_error (handleColorChange index newColor prev) i =
     option_map (fun color => if Nat.eqb i index
                              then colorData (ofString newColor) else color)
                (nth_error prev i)) /\
  ((List.length prev <= index)%nat ->
   handleColorChange index newColor prev = prev).
Proof.
  unfold handleColorChange, mapi. splits.
  - apply mapFrom_length.
  - intros i. rewrite mapFrom_nth_error. cbn [Nat.add].
    destruct (nth_error prev i); [|reflexivity]. cbn [option_map].
    destruct (Nat.eqb i index); reflexivity.
  - intros H. apply mapFrom_unchanged. intros x i Hi.
    destruct (Nat.eqb_spec i index); [lia | reflexivity].
Qed.

(** X4.  Picking a colour for a slot discards the name the user gave it:
    the result is the same as if the slot had never been renamed.  On one
    slot the last colour picked wins; a colour change and a renaming of
    two different slots commute. *)
Theorem handleColorChange_compose (i j : nat) (c1 c2 newName : string)
  (prev : list ColorData) :
  handleColorChange i c1 (handleNameChange i newName prev) =
    handleColorChange i c1 prev /\
  handleColorChange i c2 (handleColorChange i c1 prev) =
    handleColorChange i c2 prev /\
  (i <> j ->
   handleColorChange i c1 (handleNameChange j newName prev) =
   handleNameChange j newName (handleColorChange i c1 prev)).
Proof.
  unfold handleColorChange, handleNameChange, mapi. splits.
  - rewrite mapFrom_mapFrom. apply mapFrom_ext. intros x k.
    destruct (Nat.eqb k i); reflexivity.
  - rewrite mapFrom_mapFrom. apply mapFrom_ext. intros x k.
    destruct (Nat.eqb k i); reflexivity.
  - intros N. rewrite !mapFrom_mapFrom. apply mapFrom_ext. intros x k.
    destruct (Nat.eqb_spec k i), (Nat.eqb_spec k j); try reflexivity.
    exfalso. apply N. congruence.
Qed.

(** X5.  Every bulk adjustment rebuilds the names: a palette and its
    renamed copy are adjusted to the same palette, so a custom name does
    not survive a slider movement.  The palette keeps its length. *)
Theorem adjustPalette_forgets_names (adj : Adjustments) (index : nat)
  (newName : string) (prev : list ColorData) :
  List.length (adjustPalette adj prev) = List.length prev /\
  adjustPalette adj (handleNameChange index newName prev) =
    adjustPalette adj prev /\
  forall i : nat,
    nth_error (adjustPalette adj prev) i =
    option_map (fun color => colorData (adjustColor adj (hex color)))
               (nth_error prev i).
Proof.
  splits.
  - unfold adjustPalette. apply length_map.
  - apply adjustPalette_hex_only.
    unfold handleNameChange, mapi. apply mapFrom_map.
    intros x k. destruct (Nat.eqb k index); reflexivity.
  - intros i. unfold adjustPalette. apply nth_error_map.
Qed.

End Slots.

(** ** The hex strings of the palette *)

Lemma hexDigits_pair (n : Z) :
  (0 <= n <= 255)%Z ->
  exists c1 c2,
    pad2 (toString16 n) = String c1 (String c2 EmptyString) /\
    hexDigit c1 <> None /\ hexDigit c2 <> None.
Proof.
  intros Hn. destruct (hexPair n Hn) as (c1 & c2 & E & P & _).
  exists c1, c2. split; [exact E|].
  unfold parseIntFromHex in P.
  destruct (hexDigit c1); [|discriminate P].
  destruct (hexDigit c2); [|discriminate P].
  split; discriminate.
Qed.

Lemma toHexString_isHexColor (c : t) : wf c -> isHexColor (toHexString c) = true.
Proof.
  intros W. destruct (wf_round c W) as (Hr & Hg & Hb).
  destruct (hexDigits_pair _ Hr) as (r1 & r2 & Er & Dr1 & Dr2).
  destruct (hexDigits_pair _ Hg) as (g1 & g2 & Eg & Dg1 & Dg2).
  destruct (hexDigits_pair _ Hb) as (b1 & b2 & Eb & Db1 & Db2).
  unfold toHexString, rgbToHex. rewrite Er, Eg, Eb.
  cbn [append isHexColor String.length Nat.eqb andb allChars].
  destruct (hexDigit r1); [|congruence]. destruct (hexDigit r2); [|congruence].
  destruct (hexDigit g1); [|congruence]. destruct (hexDigit g2); [|congruence].
  destruct (hexDigit b1); [|congruence]. destruct (hexDigit b2); [|congruence].
  reflexivity.
Qed.

Lemma spin_wf (c : t) (amount : Q) : wf (spin c amount).
Proof. unfold spin. apply ofHsl_wf. Qed.

Lemma lighten_wf (c : t) (amount : Q) : wf (lighten c amount).
Proof. unfold lighten. apply ofHsl_wf. Qed.

Section Hex.
Context `{F : Formats}.

Lemma adjustColor_wf (adj : Adjustments) (x : string) : wf (adjustColor adj x).
Proof. unfold adjustColor. apply ofHsl_wf. Qed.

Lemma slotColor_wf (base : t) (i : nat) : wf (slotColor base i).
Proof. unfold slotColor. apply spin_wf. Qed.

(** X6.  Every hex string the engine produces has the form [#rrggbb] with
    six lower-case hex digits: the entries of the initial palette, of an
    adjusted palette, the entry a picked colour becomes (whatever string
    was picked) and the five shades. *)
Theorem hex_format :
  (forall random : Q,
     Forall (fun color => isHexColor (hex color) = true)
            (initialPalette random)) /\
  (forall (adj : Adjustments) (prev : list ColorData),
     Forall (fun color => isHexColor (hex color) = true)
            (adjustPalette adj prev)) /\
  (forall newColor : string,
     isHexColor (hex (colorData (ofString newColor))) = true) /\
  (forall x : string,
     Forall (fun shade => isHexColor shade = true) (getShades x)).
Proof.
  splits.
  - intros random. unfold initialPalette. apply Forall_map.
    apply Forall_forall. intros i _. cbn [hex colorData].
    apply toHexString_isHexColor, slotColor_wf.
  - intros adj prev. unfold adjustPalette. apply Forall_map.
    apply Forall_forall. intros e _. cbn [hex colorData].
    apply toHexString_isHexColor, adjustColor_wf.
  - intros newColor. cbn [hex colorData].
    apply toHexString_isHexColor, ofString_wf.
  - intros x. unfold getShades. apply Forall_map.
    apply Forall_forall. intros i _.
    apply toHexString_isHexColor. unfold shadeColor. apply lighten_wf.
Qed.

End Hex.

(** ** The states of the component *)

Lemma Forall_mapFrom {A B : Type} (P : A -> Prop) (Q : B -> Prop)
  (f : A -> nat -> B) (xs : list A) (k : nat) :
  (forall x i, P x -> Q (f x i)) -> Forall P xs -> Forall Q (mapFrom f k xs).
Proof.
  intros H A0. revert k. induction A0 as [|x xs Px _ IH]; intros k;
    cbn [mapFrom]; constructor; auto.
Qed.

Lemma renamed_name (color : ColorData) : renamed (name color) color = color.
Proof. destruct color. reflexivity. Qed.

Lemma renamed_renamed (n m : string) (color : ColorData) :
  renamed n (renamed m color) = renamed n color.
Proof. reflexivity. Qed.

Lemma coherent_hex `{F : Formats} (color : ColorData) :
  coherent color ->
  isHexColor (hex color) = true /\
  toHexString (ofString (hex color)) = hex color.
Proof.
  intros (c & W & E). rewrite E. cbn [renamed colorData hex]. split.
  - apply toHexString_isHexColor, W.
  - apply (adjustColor_zero c W).
Qed.

Section States.
Context `{F : Formats}.

Lemma coherent_colorData (c : t) : wf c -> coherent (colorData c).
Proof.
  intros W. exists c. split; [exact W|]. symmetry. apply renamed_name.
Qed.

Lemma coherent_renamed (newName : string) (color : ColorData) :
  coherent color -> coherent (renamed newName color).
Proof.
  intros (c & W & E). exists c. split; [exact W|].
  change (name (renamed newName color)) with newName.
  rewrite <- (renamed_renamed newName (name color) (colorData c)).
  rewrite <- E. reflexivity.
Qed.

Lemma initialPalette_coherent (random : Q) :
  List.length (initialPalette random) = 5%nat /\
  Forall coherent (initialPalette random).
Proof.
  unfold initialPalette. split.
  - rewrite length_map, length_seq. reflexivity.
  - apply Forall_map. apply Forall_forall. intros i _.
    apply coherent_colorData, slotColor_wf.
Qed.

Lemma adjustPalette_coherent (adj : Adjustments) (prev : list ColorData) :
  List.length (adjustPalette adj prev) = List.length prev /\
  Forall coherent (adjustPalette adj prev).
Proof.
  unfold adjustPalette. split; [apply length_map|].
  apply Forall_map. apply Forall_forall. intros e _.
  apply coherent_colorData, adjustColor_wf.
Qed.

Lemma handleColorChange_coherent (index : nat) (newColor : string)
  (prev : list ColorData) :
  Forall coherent prev ->
  List.length (handleColorChange index newColor prev) = List.length prev /\
  Forall coherent (handleColorChange index newColor prev).
Proof.
  intros A. unfold handleColorChange, mapi. split; [apply mapFrom_length|].
  apply (Forall_mapFrom coherent); [|exact A].
  intros x i Cx. destruct (Nat.eqb i index); cbn [negb]; [|exact Cx].
  apply coherent_colorData, ofString_wf.
Qed.

Lemma handleNameChange_coherent (index : nat) (newName : string)
  (prev : list ColorData) :
  Forall coherent prev ->
  List.length (handleNameChange index newName prev) = List.length prev /\
  Forall coherent (handleNameChange index newName prev).
Proof.
  intros A. unfold handleNameChange, mapi. split; [apply mapFrom_length|].
  apply (Forall_mapFrom coherent); [|exact A].
  intros x i Cx. destruct (Nat.eqb i index); [|exact Cx].
  apply (coherent_renamed newName x Cx).
Qed.

Lemma getShades_middle (x : string) :
  nth_error (getShades x) 2 = Some (toHexString (ofString x)).
Proof.
  unfold getShades. rewrite nth_error_map.
  change (nth_error (seq 0 5) 2) with (Some 2%nat). cbn [option_map].
  rewrite shadeColor_ofString.
  rewrite (lighten_zero (ofString x) (shadeFactor 2 * 50) (ofString_wf x))
    by (vm_compute; reflexivity).
  reflexivity.
Qed.

Lemma reachable_kept (st : State) :
  reachable st ->
  List.length (palette st) = 5%nat /\
  Forall coherent (palette st) /\
  (forall i : nat, selectedColor st = Some i -> (i < 5)%nat) /\
  (showPicker st = None \/ showPicker st = selectedColor st).
Proof.
  induction 1 as [random H0 H1 | st e R (L & C & S & P) O].
  - cbn [initialState palette selectedColor showPicker].
    destruct (initialPalette_coherent random) as (L & C).
    splits; auto. intros i E. discriminate E.
  - destruct e as [v | v | v | i | i c | i n];
      cbn [handle onHueChange onSaturationChange onBrightnessChange
           onSlotClick onPickerChange onNameInput
           palette selectedColor showPicker adjustments offered] in *.
    + destruct (adjustPalette_coherent (adjustments st) (palette st)) as (L' & C').
      splits; auto. congruence.
    + destruct (adjustPalette_coherent (adjustments st) (palette st)) as (L' & C').
      splits; auto. congruence.
    + destruct (adjustPalette_coherent (adjustments st) (palette st)) as (L' & C').
      splits; auto. congruence.
    + splits; auto.
      * intros j E. injection E as <-. lia.
      * unfold togglePicker. destruct (showPicker st) as [j|]; auto.
        destruct (Nat.eqb j i); auto.
    + destruct (handleColorChange_coherent i c (palette st) C) as (L' & C').
      splits; auto. congruence.
    + destruct (handleNameChange_coherent i n (palette st) C) as (L' & C').
      splits; auto. congruence.
Qed.

(** X7.  In every state the component can reach, the palette has five
    entries; the five format strings of an entry are those of one colour
    (only the name is free), its hex is a [#rrggbb] string that reads back
    to itself; the selected slot and the slot of the open picker exist, and
    an open picker sits in the selected slot.  So the Shades panel never
    reads a missing entry: it is absent or shows five shades, the middle
    one being the hex of the selected slot. *)
Theorem reachable_invariant (st : State) :
  reachable st ->
  List.length (palette st) = 5%nat /\
  Forall (fun color =>
            coherent color /\ isHexColor (hex color) = true /\
            toHexString (ofString (hex color)) = hex color)
         (palette st) /\
  (forall i : nat, selectedColor st = Some i -> (i < 5)%nat) /\
  (showPicker st = None \/ showPicker st = selectedColor st) /\
  shadesPanel st <> ThrowsTypeError /\
  (selectedColor st = None -> shadesPanel st = NoPanel) /\
  (forall i : nat,
     selectedColor st = Some i ->
     exists color : ColorData,
       nth_error (palette st) i = Some color /\
       shadesPanel st = ShadesOf (getShades (hex color)) /\
       List.length (getShades (hex color)) = 5%nat /\
       nth_error (getShades (hex color)) 2 = Some (hex color)).
Proof.
  intros R. destruct (reachable_kept st R) as (L & C & S & P).
  assert (G : forall i, selectedColor st = Some i ->
            exists color, nth_error (palette st) i = Some color /\
              shadesPanel st = ShadesOf (getShades (hex color)) /\
              List.length (getShades (hex color)) = 5%nat /\
              nth_error (getShades (hex color)) 2 = Some (hex color)).
  { intros i E. specialize (S i E).
    destruct (nth_error (palette st) i) as [color|] eqn:N.
    - exists color. splits; [reflexivity| | |].
      + unfold shadesPanel. rewrite E, N. reflexivity.
      + unfold getShades. rewrite length_map, length_seq. reflexivity.
      + rewrite getShades_middle. f_equal.
        apply nth_error_In in N. rewrite Forall_forall in C.
        apply (coherent_hex color (C color N)).
    - apply nth_error_None in N. lia. }
  splits; auto.
  - apply Forall_forall. intros color I.
    rewrite Forall_forall in C. specialize (C color I).
    destruct (coherent_hex color C). auto.
  - destruct (selectedColor st) as [i|] eqn:E.
    + destruct (G i eq_refl) as (color & _ & Sh & _). rewrite Sh. discriminate.
    + unfold shadesPanel. rewrite E. discriminate.
  - intros E. unfold shadesPanel. rewrite E. reflexivity.
Qed.

(** X8.  Once a slot has been clicked the selection is never cleared: no
    sequence of events brings [selectedColor] back to [null], so the Shades
    panel cannot be closed again.  A click on the slot whose picker is open
    closes the picker; a click on any other slot opens the picker there
    (and closes the one that was open). *)
Theorem selection_never_cleared :
  (forall (events : list Event) (st : State) (i : nat),
     exists j : nat, selectedColor (run events (handle (SlotClick i) st)) = Some j) /\
  (forall (st : State) (i : nat),
     selectedColor (handle (SlotClick i) st) = Some i /\
     palette (handle (SlotClick i) st) = palette st /\
     adjustments (handle (SlotClick i) st) = adjustments st) /\
  (forall (st : State) (i : nat),
     showPicker (handle (SlotClick i) (handle (SlotClick i) st)) =
     match showPicker st with
     | Some j => if Nat.eqb j i then Some i else None
     | None => None
     end) /\
  (forall (st : State) (i j : nat),
     i <> j ->
     showPicker (handle (SlotClick j) (handle (SlotClick i) st)) = Some j).
Proof.
  splits.
  - intros events st i.
    assert (K : forall es s, selectedColor s <> None ->
                selectedColor (run es s) <> None).
    { induction es as [|e es IH]; intros s Hs; [exact Hs|].
      unfold run. cbn [fold_left]. apply IH.
      destruct e; cbn; try exact Hs. discriminate. }
    specialize (K events (handle (SlotClick i) st)).
    destruct (selectedColor (run events (handle (SlotClick i) st))) as [j|].
    + exists j. reflexivity.
    + exfalso. apply K; [discriminate | reflexivity].
  - intros st i. cbn. auto.
  - intros st i. cbn [handle onSlotClick showPicker togglePicker].
    unfold togglePicker. destruct (showPicker st) as [j|].
    + destruct (Nat.eqb j i) eqn:E; [reflexivity|].
      rewrite Nat.eqb_refl. reflexivity.
    + rewrite Nat.eqb_refl. reflexivity.
  - intros st i j N. cbn [handle onSlotClick showPicker].
    unfold togglePicker. destruct (showPicker st) as [k|].
    + destruct (Nat.eqb k i).
      * reflexivity.
      * destruct (Nat.eqb_spec i j); [contradiction | reflexivity].
    + destruct (Nat.eqb_spec i j); [contradiction | reflexivity].
Qed.

End States.

Lemma reachable_invariant_witness :
  let st := handle (F := hexOnly) (SlotClick 2) (initialState (F := hexOnly) (1 # 3)) in
  reachable (F := hexOnly) st /\
  List.length (palette st) = 5%nat /\
  Forall (fun color =>
            coherent (F := hexOnly) color /\ isHexColor (hex color) = true /\
            toHexString (ofString (F := hexOnly) (hex color)) = hex color)
         (palette st) /\
  (forall i : nat, selectedColor st = Some i -> (i < 5)%nat) /\
  (showPicker st = None \/ showPicker st = selectedColor st) /\
  shadesPanel (F := hexOnly) st <> ThrowsTypeError /\
  (selectedColor st = None -> shadesPanel (F := hexOnly) st = NoPanel) /\
  (forall i : nat,
     selectedColor st = Some i ->
     exists color : ColorData,
       nth_error (palette st) i = Some color /\
       shadesPanel (F := hexOnly) st = ShadesOf (getShades (F := hexOnly) (hex color)) /\
       List.length (getShades (F := hexOnly) (hex color)) = 5%nat /\
       nth_error (getShades (F := hexOnly) (hex color)) 2 = Some (hex color)).
Proof.
  intros st.
  assert (R : reachable (F := hexOnly) st).
  { apply (reachable_handle (F := hexOnly)).
    - apply (reachable_initial (F := hexOnly)); lra.
    - cbn [offered initialState palette]. unfold initialPalette.
      rewrite length_map, length_seq. lia. }
  split; [exact R|].
  exact (reachable_invariant (F := hexOnly) st R).
Defined.

(** ** The sliders *)

Section Sliders.
Context `{F : Formats}.

Lemma coherent_storedHex (color : ColorData) :
  coherent color -> storedHex (hex color).
Proof.
  intros (c & W & E). exists c. split; [exact W|].
  rewrite E. reflexivity.
Qed.

Lemma adjustPalette_zero_hex (prev : list ColorData) :
  Forall coherent prev ->
  map hex (adjustPalette noAdjustment prev) = map hex prev.
Proof.
  intros A. unfold adjustPalette. rewrite map_map.
  apply map_ext_in. intros e I. rewrite Forall_forall in A.
  destruct (A e I) as (c & W & E). rewrite E.
  cbn [renamed colorData hex].
  destruct (adjustColor_zero c W) as (_ & Z & _). exact Z.
Qed.

(** X9.  A slider movement adjusts the palette by the values the sliders
    had before it, not by the value it sets: from the initial state the
    first movement of any slider changes no hex at all, whatever value it
    sets, and the second movement applies the value of the first. *)
Theorem slider_lags_one_event (random v w : Q) :
  let s0 := initialState random in
  (adjustments (handle (HueChange v) s0) = BuildAdjustments v 0 0 /\
   adjustments (handle (SaturationChange v) s0) = BuildAdjustments 0 v 0 /\
   adjustments (handle (BrightnessChange v) s0) = BuildAdjustments 0 0 v) /\
  (map hex (palette (handle (HueChange v) s0)) = map hex (palette s0) /\
   map hex (palette (handle (SaturationChange v) s0)) = map hex (palette s0) /\
   map hex (palette (handle (BrightnessChange v) s0)) = map hex (palette s0)) /\
  (palette (handle (HueChange w) (handle (HueChange v) s0)) =
     adjustPalette (BuildAdjustments v 0 0) (palette s0) /\
   palette (handle (SaturationChange w) (handle (SaturationChange v) s0)) =
     adjustPalette (BuildAdjustments 0 v 0) (palette s0) /\
   palette (handle (BrightnessChange w) (handle (BrightnessChange v) s0)) =
     adjustPalette (BuildAdjustments 0 0 v) (palette s0)).
Proof.
  intros s0.
  assert (Z : map hex (adjustPalette noAdjustment (initialPalette random)) =
              map hex (initialPalette random)).
  { apply adjustPalette_zero_hex. apply initialPalette_coherent. }
  subst s0.
  cbn [handle onHueChange onSaturationChange onBrightnessChange initialState
       palette adjustments hue saturation brightness].
  fold noAdjustment.
  splits; try reflexivity; try exact Z;
    apply adjustPalette_hex_only; exact Z.
Qed.

End Sliders.

(** ** The names *)

Lemma name_shape (l s : Q) (w : string) :
  In w sixHues ->
  exists pre sat : string,
    In pre [""; "Light "; "Dark "]%string /\
    In sat ["Vibrant"; "Muted"]%string /\
    trim (lightnessLabel l ++ " " ++ saturationLabel s ++ " " ++ w)%string =
    (pre ++ sat ++ " " ++ w)%string.
Proof.
  intros I. unfold lightnessLabel, saturationLabel.
  assert (T : forall pre sat : string,
             In pre [""; "Light "; "Dark "]%string ->
             In sat ["Vibrant"; "Muted"]%string ->
             forall lab : string,
             trim (lab ++ " " ++ sat ++ " " ++ w)%string =
               (pre ++ sat ++ " " ++ w)%string ->
             exists pre' sat' : string,
               In pre' [""; "Light "; "Dark "]%string /\
               In sat' ["Vibrant"; "Muted"]%string /\
               trim (lab ++ " " ++ sat ++ " " ++ w)%string =
               (pre' ++ sat' ++ " " ++ w)%string).
  { intros pre sat P S lab E. exists pre, sat. auto. }
  cbn [In sixHues] in I.
  destruct (Qlt_le_dec 0.7 l); [|destruct (Qlt_le_dec l 0.3)];
    destruct (Qlt_le_dec 0.5 s).
  - apply (T "Light " "Vibrant")%string; [cbn [In]; auto | cbn [In]; auto |].
    destruct I as [<-|[<-|[<-|[<-|[<-|[<-|[]]]]]]]; reflexivity.
  - apply (T "Light " "Muted")%string; [cbn [In]; auto | cbn [In]; auto |].
    destruct I as [<-|[<-|[<-|[<-|[<-|[<-|[]]]]]]]; reflexivity.
  - apply (T "Dark " "Vibrant")%string; [cbn [In]; auto | cbn [In]; auto |].
    destruct I as [<-|[<-|[<-|[<-|[<-|[<-|[]]]]]]]; reflexivity.
  - apply (T "Dark " "Muted")%string; [cbn [In]; auto | cbn [In]; auto |].
    destruct I as [<-|[<-|[<-|[<-|[<-|[<-|[]]]]]]]; reflexivity.
  - apply (T "" "Vibrant")%string; [cbn [In]; auto | cbn [In]; auto |].
    destruct I as [<-|[<-|[<-|[<-|[<-|[<-|[]]]]]]]; reflexivity.
  - apply (T "" "Muted")%string; [cbn [In]; auto | cbn [In]; auto |].
    destruct I as [<-|[<-|[<-|[<-|[<-|[<-|[]]]]]]]; reflexivity.
Qed.

(** X10.  Whatever the colour, [generateColorName] returns an optional
    "Light " or "Dark ", then "Vibrant" or "Muted", a space and one of the
    six hue words Red..Purple: one of 36 names, with no stray space, never
    "Pink" and never "undefined". *)
Theorem generateColorName_shape (c : t) :
  exists pre sat w : string,
    In pre [""; "Light "; "Dark "]%string /\
    In sat ["Vibrant"; "Muted"]%string /\
    In w sixHues /\
    generateColorName c = (pre ++ sat ++ " " ++ w)%string.
Proof.
  destruct (generateColorName_hue c) as (w & I & E).
  destruct (name_shape (l (toHsl c)) (s (toHsl c)) w I) as (pre & sat & P & S & T).
  exists pre, sat, w. splits; auto. rewrite E. exact T.
Qed.

Lemma rem_range_neg (x : Q) : -360 < x -> x < 0 -> -6 <= rem x 360 / 60 < 0.
Proof.
  intros H0 H1. pose proof (rem_negative x 360 ltac:(lra) H0 H1) as E.
  rewrite E. qlra.
Qed.

(** X11.  The remainder of line 26 guards the upper side only.  For every
    hue from 0 upwards, however many turns, the index is that of the hue
    brought into [[0,360)] and lies in 0..5.  For a hue between -360 and 0
    the index is negative, the lookup gives [undefined], and the name ends
    with the word "undefined". *)
Theorem hueIndex_outside_turn :
  (forall h : Q,
     0 <= h ->
     hueIndex h = hueIndex (modulo h 360) /\ (0 <= hueIndex h <= 5)%Z) /\
  (forall h s l : Q,
     -360 < h -> h < 0 ->
     (-6 <= hueIndex h <= -1)%Z /\
     element hueNames (hueIndex h) = None /\
     colorNameOf h s l =
     trim (lightnessLabel l ++ " " ++ saturationLabel s ++ " undefined")%string).
Proof.
  split.
  - intros h H0.
    pose proof (modulo_range h 360 ltac:(lra)) as (M0 & M1).
    assert (E : hueIndex h = hueIndex (modulo h 360)).
    { unfold hueIndex, Math_floor. apply Qfloor_comp.
      rewrite (rem_nonneg h 360 ltac:(lra) H0).
      rewrite (rem_small (modulo h 360) 360 M0 M1). reflexivity. }
    split; [exact E|]. rewrite E. apply hueIndex_range; assumption.
  - intros h s l H0 H1.
    pose proof (rem_range_neg h H0 H1) as (R0 & R1).
    assert (K : (-6 <= hueIndex h <= -1)%Z).
    { unfold hueIndex, Math_floor.
      pose proof (Qfloor_le (rem h 360 / 60)) as F1.
      pose proof (Qlt_floor (rem h 360 / 60)) as F2.
      rewrite inject_Z_plus in F2. change (inject_Z 1) with 1 in F2.
      split.
      - assert (L : inject_Z (-7) < inject_Z (Qfloor (rem h 360 / 60))).
        { change (inject_Z (-7)) with (-7). lra. }
        rewrite <- Zlt_Qlt in L. lia.
      - assert (L : inject_Z (Qfloor (rem h 360 / 60)) < inject_Z 0).
        { change (inject_Z 0) with 0. lra. }
        rewrite <- Zlt_Qlt in L. lia. }
    assert (N : element hueNames (hueIndex h) = None).
    { unfold element. destruct (Z.ltb_spec (hueIndex h) 0); [reflexivity | lia]. }
    splits; [lia | lia | exact N |].
    unfold colorNameOf. rewrite N. reflexivity.
Qed.

Lemma hueIndex_outside_turn_witness :
  (0 <= 400 /\ -360 < -30 /\ -30 < 0) /\
  (hueIndex 400 = hueIndex (modulo 400 360) /\ (0 <= hueIndex 400 <= 5)%Z) /\
  (-6 <= hueIndex (-30) <= -1)%Z /\
  element hueNames (hueIndex (-30)) = None /\
  colorNameOf (-30) 0.7 0.5 =
  trim (lightnessLabel 0.5 ++ " " ++ saturationLabel 0.7 ++ " undefined")%string.
Proof.
  assert (A : 0 <= 400) by lra.
  assert (B : -360 < -30) by lra.
  assert (C : -30 < 0) by lra.
  split; [splits; assumption|].
  split.
  - exact (proj1 hueIndex_outside_turn 400 A).
  - exact (proj2 hueIndex_outside_turn (-30) 0.7 0.5 B C).
Defined.

Section InitialNames.
Context `{F : Formats}.

(** X12.  Each of the five initial entries is named "Vibrant" and a hue
    word: the initial palette has no Light, Dark or Muted entry. *)
Theorem initialPalette_names (random : Q) :
  0 <= random -> random < 1 ->
  Forall (fun color =>
            exists w : string,
              In w sixHues /\ name color = ("Vibrant " ++ w)%string)
         (initialPalette random).
Proof.
  intros H0 H1. unfold initialPalette. apply Forall_map.
  apply Forall_forall. intros i _. cbn [name colorData].
  destruct (baseColor_hsl random H0 H1) as (Bh & Bs & Bl).
  assert (A : 0 <= inject_Z (Z.of_nat i) * 30).
  { assert (0 <= inject_Z (Z.of_nat i)).
    { change 0 with (inject_Z 0). rewrite <- Zle_Qle. lia. }
    nra. }
  destruct (clone_baseColor random H0 H1) as (_ & _ & Cs & Cl).
  unfold slotColor.
  destruct (spin_hsl (clone (baseColor random)) (inject_Z (Z.of_nat i) * 30) A
              ltac:(lra) ltac:(lra) ltac:(lra)) as (_ & Ss & Sl).
  destruct (generateColorName_hue
              (spin (clone (baseColor random)) (inject_Z (Z.of_nat i) * 30)))
    as (w & I & E).
  exists w. split; [exact I|]. rewrite E.
  rewrite (lightnessLabel_comp _ 0.5) by lra.
  rewrite (saturationLabel_comp _ 0.7) by lra.
  cbn [In sixHues] in I.
  destruct I as [<-|[<-|[<-|[<-|[<-|[<-|[]]]]]]]; vm_compute; reflexivity.
Qed.

End InitialNames.

Lemma initialPalette_names_witness :
  (0 <= (1 # 3) /\ (1 # 3) < 1) /\
  Forall (fun color =>
            exists w : string,
              In w sixHues /\ name color = ("Vibrant " ++ w)%string)
         (initialPalette (F := hexOnly) (1 # 3)).
Proof.
  split; [lra|]. apply (initialPalette_names (F := hexOnly) (1 # 3)); lra.
Defined.

(** ** The ends of the sliders *)

Lemma Qred_zero (x c : Q) : Qred x = x -> x == c -> x = Qred c.
Proof. intros R E. rewrite <- R. apply Qred_complete. exact E. Qed.

Lemma hslOfUnit_l (r g b : Q) :
  snd (hslOfUnit r g b) == (max3 r g b + min3 r g b) / 2.
Proof.
  unfold hslOfUnit. destruct (Qeq_dec (max3 r g b) (min3 r g b));
    cbn [snd]; reflexivity.
Qed.

(** Only black has lightness 0 and only white has lightness 1. *)
Lemma lightness_extreme (c : t) :
  wf c ->
  (l (toHsl c) == 0 -> r c = 0 /\ g c = 0 /\ b c = 0) /\
  (l (toHsl c) == 1 -> r c = 255 /\ g c = 255 /\ b c = 255).
Proof.
  intros (Wr & Wg & Wb & Wa & Cr & Cg & Cb & Ca).
  assert (E : l (toHsl c) ==
              (max3 (r c / 255) (g c / 255) (b c / 255) +
               min3 (r c / 255) (g c / 255) (b c / 255)) / 2).
  { unfold toHsl. rewrite rgbToHsl_unit.
    pose proof (hslOfUnit_l (bound01 (r c) 255) (bound01 (g c) 255)
                  (bound01 (b c) 255)) as L.
    destruct (hslOfUnit _ _ _) as [[h0 s0] l0]. cbn [snd] in L. cbn [l].
    rewrite L.
    assert (ER : bound01 (r c) 255 == r c / 255) by (apply bound01_id; lra).
    assert (EG : bound01 (g c) 255 == g c / 255) by (apply bound01_id; lra).
    assert (EB : bound01 (b c) 255 == b c / 255) by (apply bound01_id; lra).
    unfold max3, min3, Math_max, Math_min. qcases; qlra. }
  destruct (max3_spec (r c / 255) (g c / 255) (b c / 255)) as (M1 & M2 & M3 & M4).
  destruct (min3_spec (r c / 255) (g c / 255) (b c / 255)) as (m1 & m2 & m3 & m4).
  set (M := max3 _ _ _) in *. set (m := min3 _ _ _) in *. clearbody M m.
  split; intros Z; rewrite E in Z.
  - assert (r c == 0 /\ g c == 0 /\ b c == 0) as (Zr & Zg & Zb).
    { destruct m4 as [->|[->| ->]]; splits; qlra. }
    splits; apply (Qred_zero _ 0); assumption.
  - assert (r c == 255 /\ g c == 255 /\ b c == 255) as (Zr & Zg & Zb).
    { destruct M4 as [->|[->| ->]]; splits; qlra. }
    splits; apply (Qred_zero _ 255); assumption.
Qed.

Lemma black_entry (a0 : Q) (v : bool) (fmt : Format) :
  toHexString (Build 0 0 0 a0 v fmt) = "#000000"%string /\
  generateColorName (Build 0 0 0 a0 v fmt) = "Dark Muted Red"%string.
Proof. split; vm_compute; reflexivity. Qed.

Lemma white_entry (a0 : Q) (v : bool) (fmt : Format) :
  toHexString (Build 255 255 255 a0 v fmt) = "#ffffff"%string /\
  generateColorName (Build 255 255 255 a0 v fmt) = "Light Muted Red"%string.
Proof. split; vm_compute; reflexivity. Qed.

Lemma ofHsl_gray (hh ss ll aa : Q) :
  ss == 0 ->
  r (ofHsl (BuildHSL hh ss ll aa)) = g (ofHsl (BuildHSL hh ss ll aa)) /\
  g (ofHsl (BuildHSL hh ss ll aa)) = b (ofHsl (BuildHSL hh ss ll aa)).
Proof.
  intros Z. unfold ofHsl. cbn [h s l alpha]. rewrite hslToRgb_unit.
  unfold rgbOfUnit.
  assert (B : boundFraction ss == 0).
  { rewrite boundFraction_unit; lra. }
  destruct (Qeq_dec (boundFraction ss) 0) as [_|N]; [|contradiction].
  cbn [make r g b]. split; reflexivity.
Qed.

Lemma gray_name (c : t) :
  r c = g c -> g c = b c ->
  In (generateColorName c)
     ["Light Muted Red"; "Muted Red"; "Dark Muted Red"]%string.
Proof.
  intros E1 E2. unfold generateColorName, toHsl. rewrite rgbToHsl_unit.
  pose proof (hslOfUnit_gray (bound01 (r c) 255) (bound01 (g c) 255)
                (bound01 (b c) 255) (bound01 (r c) 255)) as G.
  destruct G as (Gh & Gs & _);
    [reflexivity | rewrite E1; reflexivity | rewrite <- E2, E1; reflexivity |].
  destruct (hslOfUnit _ _ _) as [[h0 s0] l0]. cbn [fst snd] in Gh, Gs.
  cbn [h s l]. unfold colorNameOf.
  rewrite (hueIndex_comp (h0 * 360) 0) by (rewrite Gh; lra).
  rewrite (saturationLabel_comp s0 0 Gs).
  unfold lightnessLabel.
  destruct (Qlt_le_dec 0.7 l0); [|destruct (Qlt_le_dec l0 0.3)];
    cbn [In]; vm_compute; auto.
Qed.

Lemma adjustHsl_fields (adj : Adjustments) (c : HSL) :
  l (adjustHsl adj c) = Math_max 0 (Math_min 1 (l c + brightness adj / 100)).
Proof. reflexivity. Qed.

Section Ends.
Context `{F : Formats}.

Lemma adjustColor_lightness (adj : Adjustments) (x : string) :
  l (toHsl (adjustColor adj x)) ==
  Math_max 0 (Math_min 1 (l (toHsl (ofString x)) + brightness adj / 100)).
Proof.
  pose proof (adjustColor_hsl adj x) as H. cbv zeta in H.
  destruct H as (H & _). rewrite adjustHsl_fields in H. exact H.
Qed.

(** X13.  With the brightness at -100 or below every entry of the adjusted
    palette is black, [#000000], named "Dark Muted Red"; with the
    brightness at 100 or above every entry is white, [#ffffff], named
    "Light Muted Red".  The hues of the palette are lost: all slots show
    the same hex and the same name. *)
Theorem brightness_ends (adj : Adjustments) (prev : list ColorData) :
  (brightness adj <= -100 ->
   Forall (fun color => hex color = "#000000"%string /\
                        name color = "Dark Muted Red"%string)
          (adjustPalette adj prev)) /\
  (100 <= brightness adj ->
   Forall (fun color => hex color = "#ffffff"%string /\
                        name color = "Light Muted Red"%string)
          (adjustPalette adj prev)).
Proof.
  split; intros B; unfold adjustPalette; apply Forall_map;
    apply Forall_forall; intros e _; cbn [hex name colorData];
    pose proof (adjustColor_lightness adj (hex e)) as L;
    pose proof (toHsl_range (ofString (hex e))) as (_ & _ & (L0 & L1) & _);
    pose proof (lightness_extreme _ (adjustColor_wf adj (hex e))) as (K0 & K1);
    destruct (adjustColor adj (hex e)) as [r0 g0 b0 a0 v0 f0];
    cbn [r g b] in K0, K1.
  - destruct K0 as (-> & -> & ->); [|apply black_entry].
    rewrite L. unfold Math_max, Math_min. qcases; qlra.
  - destruct K1 as (-> & -> & ->); [|apply white_entry].
    rewrite L. unfold Math_max, Math_min. qcases; qlra.
Qed.

(** X14.  With the saturation at -100 or below every entry of the adjusted
    palette is a gray: its three channels print the same two digits, and
    its name is "Muted Red" with the lightness word, whatever hue the entry
    had. *)
Theorem saturation_floor (adj : Adjustments) (prev : list ColorData) :
  saturation adj <= -100 ->
  Forall (fun color =>
            (exists d : string, hex color = String "#" (d ++ d ++ d)) /\
            In (name color)
               ["Light Muted Red"; "Muted Red"; "Dark Muted Red"]%string)
         (adjustPalette adj prev).
Proof.
  intros B. unfold adjustPalette. apply Forall_map.
  apply Forall_forall. intros e _. cbn [hex name colorData].
  pose proof (toHsl_range (ofString (hex e))) as (_ & (S0 & S1) & _).
  assert (G : r (adjustColor adj (hex e)) = g (adjustColor adj (hex e)) /\
              g (adjustColor adj (hex e)) = b (adjustColor adj (hex e))).
  { unfold adjustColor, adjustHsl. apply ofHsl_gray.
    unfold Math_max, Math_min. qcases; qlra. }
  destruct G as (G1 & G2). split.
  - exists (pad2 (toString16 (Math_round (r (adjustColor adj (hex e)))))).
    unfold toHexString, rgbToHex. rewrite <- G2, <- G1. reflexivity.
  - apply gray_name; assumption.
Qed.

End Ends.

Lemma brightness_ends_witness :
  let prev := handleColorChange (F := hexOnly) 0 "#3366cc"
                (initialPalette (F := hexOnly) (1 # 3)) in
  (-100 <= -100 /\ 100 <= 100) /\
  Forall (fun color => hex color = "#000000"%string /\
                       name color = "Dark Muted Red"%string)
         (adjustPalette (F := hexOnly) (BuildAdjustments 0 0 (-100)) prev) /\
  Forall (fun color => hex color = "#ffffff"%string /\
                       name color = "Light Muted Red"%string)
         (adjustPalette (F := hexOnly) (BuildAdjustments 0 0 100) prev).
Proof.
  intros prev. split; [lra|]. split.
  - apply (brightness_ends (F := hexOnly) (BuildAdjustments 0 0 (-100)) prev).
    cbn [brightness]. lra.
  - apply (brightness_ends (F := hexOnly) (BuildAdjustments 0 0 100) prev).
    cbn [brightness]. lra.
Defined.

Lemma saturation_floor_witness :
  let adj := BuildAdjustments 0 (-100) 0 in
  let prev := initialPalette (F := hexOnly) (1 # 3) in
  saturation adj <= -100 /\
  Forall (fun color =>
            (exists d : string, hex color = String "#" (d ++ d ++ d)) /\
            In (name color)
               ["Light Muted Red"; "Muted Red"; "Dark Muted Red"]%string)
         (adjustPalette (F := hexOnly) adj prev).
Proof.
  intros adj prev.
  assert (B : saturation adj <= -100) by (cbn [saturation adj]; lra).
  split; [exact B|]. exact (saturation_floor (F := hexOnly) adj prev B).
Defined.

(** ** The ramp of shades *)




Section Ramp.
Context `{F : Formats}.


End Ramp.


(** ** Picking a colour *)

Section Pick.
Context `{F : Formats}.

Lemma colorData_reread (r0 g0 b0 : Z) :
  (0 <= r0 <= 255)%Z -> (0 <= g0 <= 255)%Z -> (0 <= b0 <= 255)%Z ->
  let c := Build (inject_Z r0) (inject_Z g0) (inject_Z b0) 1 true FormatHex in
  ofString (toHexString c) = c /\
  toHexString (adjustColor noAdjustment (toHexString c)) = toHexString c.
Proof.
  intros Hr Hg Hb c.
  assert (W : wf c) by (apply wf_Z; assumption).
  split.
  - rewrite (ofString_toHexString c W). unfold c. cbn [r g b].
    rewrite !Math_round_Z. reflexivity.
  - apply (adjustColor_zero c W).
Qed.

(** X16.  A picked colour written as a hex string (three or six digits,
    any case, with or without [#]) is stored in one spelling, [#] and six
    lower-case digits; that spelling reads as the same colour.  So picking
    the stored hex again changes nothing, and a zero adjustment leaves the
    hex of the slot as it is. *)
Theorem pick_is_canonical (index : nat) (newColor : string)
  (prev : list ColorData) (r0 g0 b0 : Z) :
  parseHex newColor = Some (r0, g0, b0) ->
  (index < List.length prev)%nat ->
  exists color : ColorData,
    nth_error (handleColorChange index newColor prev) index = Some color /\
    hex color =
      String "#" (pad2 (toString16 r0) ++ pad2 (toString16 g0) ++
                  pad2 (toString16 b0)) /\
    parseHex (hex color) = Some (r0, g0, b0) /\
    handleColorChange index (hex color)
      (handleColorChange index newColor prev) =
      handleColorChange index newColor prev /\
    nth_error (map hex (adjustPalette noAdjustment
                          (handleColorChange index newColor prev))) index =
      Some (hex color).
Proof.
  intros P I.
  pose proof (ofString_parseHex newColor r0 g0 b0 P) as E.
  assert (R : (0 <= r0 <= 255)%Z /\ (0 <= g0 <= 255)%Z /\ (0 <= b0 <= 255)%Z).
  { unfold parseHex in P. apply hexForms_range in P. exact P. }
  destruct R as (Rr & Rg & Rb).
  destruct (colorData_reread r0 g0 b0 Rr Rg Rb) as (E1 & E2).
  set (c := Build (inject_Z r0) (inject_Z g0) (inject_Z b0) 1 true FormatHex) in *.
  assert (W : wf c) by (apply wf_Z; assumption).
  exists (colorData c).
  assert (N : nth_error (handleColorChange index newColor prev) index =
              Some (colorData c)).
  { unfold handleColorChange, mapi. rewrite mapFrom_nth_error. cbn [Nat.add].
    destruct (nth_error prev index) as [e|] eqn:Ne.
    - cbn [option_map]. rewrite Nat.eqb_refl. cbn [negb]. rewrite E. reflexivity.
    - apply nth_error_None in Ne. lia. }
  splits.
  - exact N.
  - cbn [hex colorData]. apply toHexString_Z.
  - cbn [hex colorData]. rewrite (parseHex_toHexString c W).
    unfold c. cbn [r g b]. rewrite !Math_round_Z. reflexivity.
  - cbn [hex colorData]. unfold handleColorChange, mapi.
    rewrite mapFrom_mapFrom. apply mapFrom_ext. intros e k.
    destruct (Nat.eqb k index); cbn [negb]; [|reflexivity].
    rewrite E1, E. reflexivity.
  - unfold adjustPalette. rewrite map_map, nth_error_map, N. cbn [option_map].
    cbn [hex colorData]. rewrite E2. reflexivity.
Qed.

End Pick.

Lemma pick_is_canonical_witness :
  let prev := initialPalette (F := hexOnly) (1 # 3) in
  (parseHex " #3AF " = Some (51, 170, 255)%Z /\
   (1 < List.length prev)%nat) /\
  exists color : ColorData,
    nth_error (handleColorChange (F := hexOnly) 1 " #3AF " prev) 1 = Some color /\
    hex color =
      String "#" (pad2 (toString16 51) ++ pad2 (toString16 170) ++
                  pad2 (toString16 255)) /\
    parseHex (hex color) = Some (51, 170, 255)%Z /\
    handleColorChange (F := hexOnly) 1 (hex color)
      (handleColorChange (F := hexOnly) 1 " #3AF " prev) =
      handleColorChange (F := hexOnly) 1 " #3AF " prev /\
    nth_error (map hex (adjustPalette (F := hexOnly) noAdjustment
                          (handleColorChange (F := hexOnly) 1 " #3AF " prev))) 1 =
      Some (hex color).
Proof.
  intros prev.
  assert (P : parseHex " #3AF " = Some (51, 170, 255)%Z) by reflexivity.
  assert (I : (1 < List.length prev)%nat).
  { unfold prev, initialPalette. rewrite length_map, length_seq. lia. }
  split; [split; [exact P | exact I]|].
  exact (pick_is_canonical (F := hexOnly) 1 " #3AF " prev 51 170 255 P I).
Defined.
